(** * PyPhi system irreducibility analysis and tie resolution

    A shallow embedding of [pyphi/new_big_phi/__init__.py] and
    [pyphi/resolve_ties.py].

    Modelling conventions
    - A Python float is an [xnum]: a finite number, embedded as an exact
      rational [Qc] (arithmetic does not round), one of the two infinities,
      or NaN.  The floats that partition evaluation computes with are the
      finite ones.
    - The [phi] and [normalized_phi] of an SIA are wrapped in [PyPhiFloat],
      whose comparisons hold up to the absolute tolerance
      [constants.EPSILON]; the minimisation loop of [sia] compares keys
      made of such floats.
    - Python objects with identity (the SIAs produced during one search) are
      pairs of a reference and their immutable field values; the one mutable
      attribute, [_ties], lives in a store indexed by reference.
    - A raised exception is the [Err] result of the error monad [result]. *)

From Stdlib Require Import QArith Qcanon.
From stdpp Require Import base option list gmap strings numbers.

Local Open Scope Qc_scope.

(** ** Exceptions *)

Inductive exn :=
| ZeroDivisionError
| ValueError
| KeyError
| NotImplementedError
| AttributeError
| TypeError.

Inductive result (A : Type) :=
| Ok (a : A)
| Err (e : exn).
Arguments Ok {A} a.
Arguments Err {A} e.

#[global] Instance result_ret : MRet result := λ A a, Ok a.
#[global] Instance result_bind : MBind result := λ A B k r,
  match r with
  | Ok a => k a
  | Err e => Err e
  end.
#[global] Instance result_fmap : FMap result := λ A B f r,
  match r with
  | Ok a => Ok (f a)
  | Err e => Err e
  end.

#[global] Instance exn_eq_dec : EqDecision exn.
Proof. solve_decision. Defined.

#[global] Instance result_eq_dec `{EqDecision A} : EqDecision (result A).
Proof. solve_decision. Defined.

(** ** Numbers *)

(** A Python float: a finite number, one of the two infinities, or NaN. *)
Inductive xnum :=
| NaN
| NegInf
| Fin (q : Qc)
| PosInf.

#[global] Instance xnum_eq_dec : EqDecision xnum.
Proof. solve_decision. Defined.

(** [x < y] on floats; a comparison with NaN is false. *)
Definition xnum_ltb (x y : xnum) : bool :=
  match x, y with
  | NaN, _ => false
  | _, NaN => false
  | NegInf, NegInf => false
  | NegInf, _ => true
  | Fin _, NegInf => false
  | Fin p, Fin q => bool_decide (p < q)
  | Fin _, PosInf => true
  | PosInf, _ => false
  end.

(** [x <= y] on floats. *)
Definition xnum_leb (x y : xnum) : bool :=
  match x, y with
  | NaN, _ => false
  | _, NaN => false
  | NegInf, _ => true
  | Fin _, NegInf => false
  | Fin p, Fin q => bool_decide (p ≤ q)
  | Fin _, PosInf => true
  | PosInf, PosInf => true
  | PosInf, _ => false
  end.

(** [-x] *)
Definition xnum_opp (x : xnum) : xnum :=
  match x with
  | NaN => NaN
  | NegInf => PosInf
  | Fin q => Fin (- q)
  | PosInf => NegInf
  end.

(** [abs(x)] on a finite float. *)
Definition py_abs (x : Qc) : Qc := if bool_decide (x < 0) then - x else x.

(** [x - y] on floats; the difference of two equal infinities is NaN. *)
Definition xnum_sub (x y : xnum) : xnum :=
  match x, y with
  | NaN, _ => NaN
  | _, NaN => NaN
  | Fin p, Fin q => Fin (p - q)
  | PosInf, PosInf => NaN
  | NegInf, NegInf => NaN
  | PosInf, _ => PosInf
  | NegInf, _ => NegInf
  | Fin _, PosInf => NegInf
  | Fin _, NegInf => PosInf
  end.

(** [abs(x)] on floats. *)
Definition xnum_abs (x : xnum) : xnum :=
  match x with
  | NaN => NaN
  | Fin q => Fin (py_abs q)
  | NegInf => PosInf
  | PosInf => PosInf
  end.

Section PhiEq.
(** [constants.EPSILON] *)
Variable EPSILON : Qc.

(** [utils.phi_eq]: compare two phi values up to [EPSILON]. *)
Definition phi_eq (x y : Qc) : bool := bool_decide (py_abs (x - y) ≤ EPSILON).

(** Modelled from the spec: the comparisons of [PyPhiFloat]
    ([pyphi/data_structures], not under [src/]), the type of the [phi] and
    [normalized_phi] of an SIA: "numeric tie comparison uses the same
    equality semantics as elsewhere in the system (fixed absolute tolerance
    on phi-valued floats)".  Two such floats are equal when
    [abs(x - y) <= EPSILON], the test of [utils.phi_eq], evaluated on
    floats; one is less than the other when it is less as a float and the
    two are not equal. *)
Definition pyphi_eqb (x y : xnum) : bool :=
  xnum_leb (xnum_abs (xnum_sub x y)) (Fin EPSILON).

Definition pyphi_ltb (x y : xnum) : bool :=
  xnum_ltb x y && negb (pyphi_eqb x y).

End PhiEq.

(** A minimisation key is a 2-tuple of floats. *)
Definition key : Type := xnum * xnum.

(** Python's [<] on 2-tuples of [PyPhiFloat]: the first position where the
    items are not [==] decides, by [<] on the items there. *)
Definition key_ltb (EPSILON : Qc) (a b : key) : bool :=
  if pyphi_eqb EPSILON a.1 b.1 then
    if pyphi_eqb EPSILON a.2 b.2 then false
    else pyphi_ltb EPSILON a.2 b.2
  else pyphi_ltb EPSILON a.1 b.1.

(** Python's [==] on 2-tuples of [PyPhiFloat]. *)
Definition key_eqb (EPSILON : Qc) (a b : key) : bool :=
  pyphi_eqb EPSILON a.1 b.1 && pyphi_eqb EPSILON a.2 b.2.

(** The lexicographic order on the exact values of two keys, the order the
    specification speaks of. *)
Definition lex_ltb (a b : key) : bool :=
  if bool_decide (a.1 = b.1) then xnum_ltb a.2 b.2 else xnum_ltb a.1 b.1.

Definition key_le (a b : key) : Prop := lex_ltb a b = true ∨ a = b.

(** A key both of whose components are finite. *)
Definition finite_key (k : key) : Prop := ∃ n p, k = (Fin n, Fin p).

(** Two floats are well separated when they are finite and either the same
    number or further apart than the tolerance: on such floats the
    comparisons of [PyPhiFloat] and the exact ones agree. *)
Definition well_separated (EPSILON : Qc) (x y : xnum) : Prop :=
  match x, y with
  | Fin p, Fin q => p = q ∨ phi_eq EPSILON p q = false
  | _, _ => False
  end.

(** Modelled from the spec: [conf.fallback], which lets a per-call argument
    override a configured value: the argument when it is not [None], the
    configured value otherwise. *)
Definition fallback {A} (arg : option A) (configured : A) : A :=
  default configured arg.

(** Modelled from the spec: [utils.is_positive], the test behind the
    truthiness of a phi-object: whether the value is greater than zero. *)
Definition is_positive (x : Qc) : bool := bool_decide (0 < x).

(** [min] of a Python iterable of numbers: [ValueError] on an empty one. *)
Definition py_min (xs : list Qc) : result Qc :=
  match xs with
  | [] => Err ValueError
  | x :: xs' => Ok (foldl (λ m y, if bool_decide (y < m) then y else m) x xs')
  end.

(** [sum] of a Python iterable of numbers. *)
Definition py_sum (xs : list Qc) : Qc := foldl Qcplus 0 xs.

(** ** Data model *)

Inductive Direction :=
| CAUSE
| EFFECT.

#[global] Instance Direction_eq_dec : EqDecision Direction.
Proof. solve_decision. Defined.

(** [Direction.both()] *)
Definition Direction_both : list Direction := [CAUSE; EFFECT].

Definition NodeLabels : Type := list string.

(** The state a system specifies in one direction, as returned by
    [subsystem.intrinsic_information]. *)
Record StateSpecification := {
  state : list nat;
  intrinsic_information : Qc;
}.

Record SystemStateSpecification := {
  ss_cause : StateSpecification;
  ss_effect : StateSpecification;
}.

(** [system_state[direction]] *)
Definition ss_get (system_state : SystemStateSpecification)
    (direction : Direction) : StateSpecification :=
  match direction with
  | CAUSE => ss_cause system_state
  | EFFECT => ss_effect system_state
  end.

(** A candidate partition.  [own_normalization_factor] is [Some q] when the
    object has a [normalization_factor] method, which returns [q]. *)
Record Partition := {
  from_nodes : list nat;
  to_nodes : list nat;
  own_normalization_factor : option Qc;
}.

(** The scored outcome of one direction of one partition; the code reads its
    [phi]. *)
Record RepertoireIrreducibilityAnalysis := {
  ria_phi : Qc;
}.

Inductive ShortCircuitConditions :=
| NO_VALID_PARTITIONS
| NO_CAUSE
| NO_EFFECT.

#[global] Instance ShortCircuitConditions_eq_dec :
  EqDecision ShortCircuitConditions.
Proof. solve_decision. Defined.

Record SystemIrreducibilityAnalysis := {
  sia_phi : Qc;
  sia_partition : option Partition;
  sia_normalized_phi : Qc;
  sia_cause : option RepertoireIrreducibilityAnalysis;
  sia_effect : option RepertoireIrreducibilityAnalysis;
  sia_system_state : option SystemStateSpecification;
  sia_current_state : option (list nat);
  sia_node_indices : option (list nat);
  sia_node_labels : option NodeLabels;
  sia_reasons : option (list ShortCircuitConditions);
}.

(** [SystemIrreducibilityAnalysis.__bool__] *)
Definition sia_bool (s : SystemIrreducibilityAnalysis) : bool :=
  is_positive (sia_phi s).

(** [NullSystemIrreducibilityAnalysis]: the keyword arguments the
    source passes are [system_state], [node_indices], [node_labels] and
    [reasons]; the dataclass defaults fill the rest. *)
Definition NullSystemIrreducibilityAnalysis
    (system_state : option SystemStateSpecification)
    (node_indices : option (list nat)) (node_labels : option NodeLabels)
    (reasons : option (list ShortCircuitConditions)) :
    SystemIrreducibilityAnalysis :=
  {| sia_phi := 0;
     sia_partition := None;
     sia_normalized_phi := 0;
     sia_cause := None;
     sia_effect := None;
     sia_system_state := system_state;
     sia_current_state := None;
     sia_node_indices := node_indices;
     sia_node_labels := node_labels;
     sia_reasons := reasons |}.

(** Modelled from the spec: [utils.is_falsy], the short-circuit test of the
    search: whether an outcome is falsy. *)
Definition is_falsy (s : SystemIrreducibilityAnalysis) : bool :=
  negb (sia_bool s).

(** ** Normalisation *)

Definition normalization_factor (partition : Partition) : result Qc :=
  match own_normalization_factor partition with
  | Some q => Ok q
  | None =>
      let d := (length (from_nodes partition) * length (to_nodes partition))%nat in
      if decide (d = 0%nat) then Err ZeroDivisionError
      else Ok (1 / Qc_of_Z (Z.of_nat d))
  end.

(** ** External collaborators *)

(** The configuration options the code reads. *)
Record Config := {
  REPERTOIRE_DISTANCE : string;
  REPERTOIRE_DISTANCE_INFORMATION : string;
  SYSTEM_PARTITION_TYPE : string;
  (** [constants.EPSILON], which is [10 ** -config.PRECISION] *)
  EPSILON : Qc;
}.

(** The capability the search consumes from a subsystem, the repertoire
    arithmetic behind it and the partition generator.  [tensor] is the type
    of repertoires. *)
Class SubsystemCapability (Subsystem tensor : Type) := {
  node_indices : Subsystem → list nat;
  node_labels : Subsystem → NodeLabels;
  proper_state : Subsystem → list nat;
  cut : Subsystem → Partition;
  apply_cut : Subsystem → Partition → Subsystem;
  repertoire : Subsystem → Direction → list nat → list nat → tensor;
  forward_repertoire : Subsystem → Direction → list nat → list nat → tensor;
  (** [t.squeeze()[state]] *)
  squeeze_at : tensor → list nat → tensor;
  (** [subsystem.evaluate_partition(direction, mechanism, purview, cut,
      partitioned_repertoire=, repertoire_distance=, state=)] *)
  subsystem_evaluate_partition :
    Subsystem → Direction → list nat → list nat → Partition → tensor →
    string → StateSpecification → RepertoireIrreducibilityAnalysis;
  (** [subsystem.intrinsic_information(direction, mechanism=, purview=,
      repertoire_distance=)] *)
  subsystem_intrinsic_information :
    Subsystem → Direction → list nat → list nat → string → StateSpecification;
  (** [system_partitions(node_indices, node_labels=, partition_scheme=,
      filter_func=)] *)
  system_partitions :
    list nat → NodeLabels → string → option (Partition → bool) → list Partition;
}.

(** ** Objects and the [_ties] attribute *)

Definition ref : Type := nat.

(** An SIA object: its identity and its field values. *)
Definition sia_obj : Type := ref * SystemIrreducibilityAnalysis.

(** The attributes the minimisation reads of a candidate: its [phi] and its
    [normalized_phi], two floats wrapped in [PyPhiFloat]. *)
Class PhiValued (C : Type) := {
  get_phi : C → xnum;
  get_normalized_phi : C → xnum;
}.

(** The SIAs that partition evaluation produces hold finite floats. *)
#[global] Instance SIA_PhiValued : PhiValued SystemIrreducibilityAnalysis := {|
  get_phi s := Fin (sia_phi s);
  get_normalized_phi s := Fin (sia_normalized_phi s);
|}.

(** A candidate given by its two floats alone, of whatever value. *)
Record Scored := {
  scored_phi : xnum;
  scored_normalized_phi : xnum;
}.

#[global] Instance Scored_PhiValued : PhiValued Scored := {|
  get_phi := scored_phi;
  get_normalized_phi := scored_normalized_phi;
|}.

Section Objects.
Context {C : Type}.

(** [set_ties]: the store maps the reference of an object to the list its
    [_ties] attribute points to. *)
Definition set_ties (store : gmap ref (list (ref * C))) (self : ref * C)
    (ties : list (ref * C)) : gmap ref (list (ref * C)) :=
  <[self.1 := ties]> store.

(** The [ties] property: the attribute when it is set; otherwise it is set
    to the singleton [[self]], which is returned. *)
Definition get_ties (store : gmap ref (list (ref * C))) (self : ref * C) :
    list (ref * C) * gmap ref (list (ref * C)) :=
  match store !! self.1 with
  | Some ties => (ties, store)
  | None => ([self], <[self.1 := [self]]> store)
  end.

Definition ties_of (store : gmap ref (list (ref * C))) (self : ref * C) :
    list (ref * C) :=
  (get_ties store self).1.

End Objects.

(** ** The minimisation of [sia] *)

(** The loop variables [mip_sia], [mip_key] and [ties]. *)
Record mip_state (C : Type) := {
  mip_sia : ref * C;
  mip_key : key;
  ties : list (ref * C);
}.
Arguments mip_sia {C} _.
Arguments mip_key {C} _.
Arguments ties {C} _.

Section Minimisation.
Context {C : Type} `{!PhiValued C}.
(** [constants.EPSILON], the tolerance of [PyPhiFloat] *)
Variable EPSILON : Qc.

Definition sia_minimization_key (sia : C) : key :=
  (get_normalized_phi sia, xnum_opp (get_phi sia)).

(** One iteration of the loop over [sias]. *)
Definition mip_step (st : mip_state C) (candidate_mip_sia : ref * C) :
    mip_state C :=
  let candidate_key := sia_minimization_key candidate_mip_sia.2 in
  if key_ltb EPSILON candidate_key (mip_key st) then
    {| mip_sia := candidate_mip_sia;
       mip_key := candidate_key;
       ties := [candidate_mip_sia] |}
  else if key_eqb EPSILON candidate_key (mip_key st) then
    {| mip_sia := mip_sia st;
       mip_key := mip_key st;
       ties := ties st ++ [candidate_mip_sia] |}
  else st.

Definition find_mip (default_sia : ref * C) (sias : list (ref * C)) :
    mip_state C :=
  foldl mip_step
    {| mip_sia := default_sia;
       mip_key := (PosInf, NegInf);
       ties := [default_sia] |}
    sias.

(** [for tied_mip in ties: tied_mip.set_ties(ties)] *)
Definition attach_ties (ties : list (ref * C))
    (store : gmap ref (list (ref * C))) : gmap ref (list (ref * C)) :=
  foldl (λ store tied_mip, set_ties store tied_mip ties) store ties.

(** Lines 335 to 350 of [sia]: the winner, and the store after the final tie
    list has been attached. *)
Definition minimize (default_sia : ref * C) (sias : list (ref * C))
    (store : gmap ref (list (ref * C))) :
    (ref * C) * gmap ref (list (ref * C)) :=
  let st := find_mip default_sia sias in
  (mip_sia st, attach_ties (ties st) store).

(** The key of a candidate object. *)
Definition key_of (c : ref * C) : key := sia_minimization_key c.2.

(** The tie list the fold ends with. *)
Definition tie_list (default_sia : ref * C) (sias : list (ref * C)) :
    list (ref * C) :=
  ties (find_mip default_sia sias).

End Minimisation.

(** The candidates of a list are pairwise well separated in both
    components of their keys. *)
Definition keys_separated {C} `{!PhiValued C} (EPSILON : Qc)
    (sias : list (ref * C)) : Prop :=
  ∀ c d, c ∈ sias → d ∈ sias →
    well_separated EPSILON (get_normalized_phi c.2) (get_normalized_phi d.2) ∧
    well_separated EPSILON (get_phi c.2) (get_phi d.2).

(** ** Partition evaluation and the search *)

Definition _has_no_cause_or_effect (system_state : SystemStateSpecification) :
    list ShortCircuitConditions :=
  flat_map
    (λ '(direction, reason),
       if bool_decide (intrinsic_information (ss_get system_state direction) ≤ 0)
       then [reason] else [])
    (zip Direction_both [NO_CAUSE; NO_EFFECT]).

(** Modelled from the spec: the executor [MapReduce(...).run()].  It applies
    [fn] to the inputs and supports early termination when
    [shortcircuit_func] holds of a result; the results available at that
    time are delivered.  The second component logs the inputs [fn] was
    applied to. *)
Fixpoint MapReduce_run {A B} (fn : A → result B) (shortcircuit_func : B → bool)
    (inputs : list A) : result (list B) * list A :=
  match inputs with
  | [] => (Ok [], [])
  | x :: rest =>
      match fn x with
      | Err e => (Err e, [x])
      | Ok y =>
          if shortcircuit_func y then (Ok [y], [x])
          else
            let '(ys, log) := MapReduce_run fn shortcircuit_func rest in
            (cons y <$> ys, x :: log)
      end
  end.

(** What a call of [sia] leaves behind: the value returned or the exception
    raised, the [_ties] store, and the partitions that were evaluated. *)
Record sia_run := {
  returned : result sia_obj;
  ties_store : gmap ref (list sia_obj);
  evaluated : list Partition;
}.

Section Search.
Context {Subsystem tensor : Type} `{!SubsystemCapability Subsystem tensor}.
Variable config : Config.

Definition system_intrinsic_information (subsystem : Subsystem)
    (repertoire_distance : option string) : SystemStateSpecification :=
  let repertoire_distance :=
    fallback repertoire_distance (REPERTOIRE_DISTANCE_INFORMATION config) in
  let ii direction :=
    subsystem_intrinsic_information subsystem direction
      (node_indices subsystem) (node_indices subsystem) repertoire_distance in
  {| ss_cause := ii CAUSE; ss_effect := ii EFFECT |}.

Definition integration_value (direction : Direction)
    (subsystem cut_subsystem : Subsystem)
    (system_state : SystemStateSpecification)
    (repertoire_distance : option string) :
    RepertoireIrreducibilityAnalysis :=
  let repertoire_distance :=
    fallback repertoire_distance (REPERTOIRE_DISTANCE config) in
  let partitioned_repertoire :=
    if bool_decide (repertoire_distance = "GENERALIZED_INTRINSIC_DIFFERENCE")
    then
      squeeze_at
        (forward_repertoire cut_subsystem direction
           (node_indices subsystem) (node_indices subsystem))
        (state (ss_get system_state direction))
    else
      repertoire cut_subsystem direction
        (node_indices subsystem) (node_indices subsystem) in
  subsystem_evaluate_partition subsystem direction
    (node_indices subsystem) (node_indices subsystem)
    (cut cut_subsystem) partitioned_repertoire repertoire_distance
    (ss_get system_state direction).

Definition evaluate_partition (partition : Partition) (subsystem : Subsystem)
    (system_state : SystemStateSpecification)
    (repertoire_distance : option string)
    (directions : option (list Direction)) :
    result SystemIrreducibilityAnalysis :=
  let directions := fallback directions Direction_both in
  let cut_subsystem := apply_cut subsystem partition in
  (* the dict comprehension over [Direction.both()] *)
  let integration direction :=
    integration_value direction subsystem cut_subsystem system_state
      repertoire_distance in
  phi ← py_min ((λ direction, ria_phi (integration direction)) <$> directions);
  norm ← normalization_factor partition;
  let normalized_phi := phi * norm in
  mret {| sia_phi := phi;
          sia_partition := Some partition;
          sia_normalized_phi := normalized_phi;
          sia_cause := Some (integration CAUSE);
          sia_effect := Some (integration EFFECT);
          sia_system_state := Some system_state;
          sia_current_state := Some (proper_state subsystem);
          sia_node_indices := Some (node_indices subsystem);
          sia_node_labels := Some (node_labels subsystem);
          sia_reasons := None |}.

(** [sia].  [partitions] is an iterable of partitions or [None]; with
    such an argument [filter_func] stays [None].  The null SIA is the
    object of reference [0], and the results of the executor are the
    objects [1], [2], ... in the order they are delivered. *)
Definition sia (subsystem : Subsystem) (repertoire_distance : option string)
    (directions : option (list Direction)) (partition_scheme : option string)
    (partitions : option (list Partition)) : sia_run :=
  let partition_scheme :=
    fallback partition_scheme (SYSTEM_PARTITION_TYPE config) in
  let filter_func : option (Partition → bool) := None in
  let partitions :=
    fallback partitions
      (system_partitions (node_indices subsystem) (node_labels subsystem)
         partition_scheme filter_func) in
  let system_state := system_intrinsic_information subsystem None in
  let _null_sia reasons : sia_obj :=
    (0%nat,
     NullSystemIrreducibilityAnalysis (Some system_state)
       (Some (node_indices subsystem)) (Some (node_labels subsystem))
       (Some reasons)) in
  let shortcircuit_reasons := _has_no_cause_or_effect system_state in
  if bool_decide (shortcircuit_reasons ≠ []) then
    {| returned := Ok (_null_sia shortcircuit_reasons);
       ties_store := ∅;
       evaluated := [] |}
  else
    let default_sia := _null_sia [NO_VALID_PARTITIONS] in
    let '(sias, log) :=
      MapReduce_run
        (λ partition,
           evaluate_partition partition subsystem system_state
             repertoire_distance directions)
        is_falsy partitions in
    match sias with
    | Err e => {| returned := Err e; ties_store := ∅; evaluated := log |}
    | Ok sias =>
        let '(mip_sia, store) :=
          minimize (EPSILON config) default_sia
            (imap (λ i s, (S i, s)) sias) ∅ in
        {| returned := Ok mip_sia; ties_store := store; evaluated := log |}
    end.

End Search.

(** ** Tie resolution *)

(** A computation that may raise, together with the names of the registered
    scoring functions it has invoked so far. *)
Record traced (A : Type) := Traced {
  calls : list string;
  outcome : result A;
}.
Arguments Traced {A} calls outcome.
Arguments calls {A} t.
Arguments outcome {A} t.

#[global] Instance traced_ret : MRet traced := λ A a, Traced [] (Ok a).
#[global] Instance traced_bind : MBind traced := λ A B k t,
  match outcome t with
  | Ok a => Traced (calls t ++ calls (k a)) (outcome (k a))
  | Err e => Traced (calls t) (Err e)
  end.

(** [raise e] *)
Definition raise {A} (e : exn) : traced A := Traced [] (Err e).

(** The fields of a phi-object the scoring functions read.
    [pmi_at_specified] is [None] when [partitioned_repertoire] is [None], and
    otherwise holds the entries of
    [pointwise_mutual_information_vector(repertoire,
    partitioned_repertoire)[specified_index]]. *)
Record PhiObject := {
  po_phi : Qc;
  po_normalized_phi : Qc;
  po_purview : list nat;
  po_pmi_at_specified : option (list Qc);
}.

(** [max] of a Python iterable of numbers. *)
Definition py_max (xs : list Qc) : result Qc :=
  match xs with
  | [] => Err ValueError
  | x :: xs' => Ok (foldl (λ m y, if bool_decide (m < y) then y else m) x xs')
  end.

(** [len(x)] as a number. *)
Definition py_len {A} (l : list A) : Qc := Qc_of_Z (Z.of_nat (length l)).

Definition max_informativeness (m : PhiObject) : result Qc :=
  match po_pmi_at_specified m with
  | Some v => py_max v
  | None => Ok 0
  end.

(** The registry, filled by the [register] decorators in source order. *)
Definition phi_object_tie_resolution_strategies :
    gmap string (PhiObject → result Qc) :=
  <["NONE" := λ m, Err NotImplementedError]>
  (<["NEGATIVE_NORMALIZED_PHI" := λ m, Ok (- po_normalized_phi m)]>
  (<["NORMALIZED_PHI" := λ m, Ok (po_normalized_phi m)]>
  (<["NEGATIVE_PHI" := λ m, Ok (- po_phi m)]>
  (<["PHI" := λ m, Ok (po_phi m)]>
  (<["NEGATIVE_PURVIEW_SIZE" := λ m, Ok (- py_len (po_purview m))]>
  (<["PURVIEW_SIZE" := λ m, Ok (py_len (po_purview m))]>
  (<["MAX_INFORMATIVENESS" := max_informativeness]> ∅))))))).

(** [phi_object_tie_resolution_strategies[s](obj)]: the lookup raises
    [KeyError] for a name that is not registered; otherwise the function
    registered under [s] is invoked. *)
Definition invoke_strategy (s : string) (obj : PhiObject) : traced Qc :=
  match phi_object_tie_resolution_strategies !! s with
  | None => raise KeyError
  | Some f => Traced [s] (f obj)
  end.

(** A strategy is a bare string or a list of strings. *)
Inductive strategy :=
| StrategyName (s : string)
| StrategyList (l : list string).

#[global] Instance strategy_eq_dec : EqDecision strategy.
Proof. solve_decision. Defined.

(** [tuple(f(s) for s in strategies)] *)
Fixpoint score_tuple (strategies : list string) (obj : PhiObject) :
    traced (list Qc) :=
  match strategies with
  | [] => mret []
  | s :: rest =>
      x ← invoke_strategy s obj;
      xs ← score_tuple rest obj;
      mret (x :: xs)
  end.

Definition _strategies_to_key_function (strategies : strategy) :
    PhiObject → traced (list Qc) :=
  let strategies :=
    match strategies with
    | StrategyName s => [s]
    | StrategyList l => l
    end in
  λ obj, score_tuple strategies obj.

(** Python's [<] on tuples of numbers. *)
Fixpoint tuple_ltb (a b : list Qc) : bool :=
  match a, b with
  | [], [] => false
  | [], _ :: _ => true
  | _ :: _, [] => false
  | x :: a', y :: b' =>
      if bool_decide (x = y) then tuple_ltb a' b' else bool_decide (x < y)
  end.

(** Modelled from the spec: [utils.iter_with_default], which returns the
    objects unchanged, or the supplied default if the collection is empty. *)
Definition iter_with_default {A} (objects : list A) (default : option A) :
    list A :=
  match objects, default with
  | [], Some d => [d]
  | _, _ => objects
  end.

(** Modelled from the spec: [utils.all_maxima] and [utils.all_minima] on the
    pairs of a key and an object that [resolve] passes.  They return every
    candidate whose key is extremal, not merely one, and the caller-supplied
    default, wrapped into a collection, when the input is empty.  [worse a b]
    tells that key [a] loses against key [b]. *)
Definition all_extrema {A} (worse : list Qc → list Qc → bool)
    (seq : list (list Qc * A)) (default : option (list Qc * A)) :
    list (list Qc * A) :=
  match seq with
  | [] => option_list default
  | _ => filter (λ e, forallb (λ e', negb (worse e.1 e'.1)) seq = true) seq
  end.

Definition all_maxima {A} := @all_extrema A tuple_ltb.
Definition all_minima {A} := @all_extrema A (flip tuple_ltb).

(** [zip(map(sort_key, key_args), objects)], consumed from left to right. *)
Fixpoint keyed (sort_key : PhiObject → traced (list Qc))
    (objects : list PhiObject) : traced (list (list Qc * PhiObject)) :=
  match objects with
  | [] => mret []
  | obj :: rest =>
      k ← sort_key obj;
      ks ← keyed sort_key rest;
      mret ((k, obj) :: ks)
  end.

(** [resolve], with every yielded object collected.  [default = None] is the
    sentinel [NO_DEFAULT]. *)
Definition resolve (objects : list PhiObject) (strategy : strategy)
    (operation : list (list Qc * PhiObject) → option (list Qc * PhiObject) →
                 list (list Qc * PhiObject))
    (default : option PhiObject) : traced (list PhiObject) :=
  if bool_decide (strategy = StrategyName "NONE") then
    mret (iter_with_default objects default)
  else
    let sort_key := _strategies_to_key_function strategy in
    default ← match default with
               | None => mret None
               | Some d => k ← sort_key d; mret (Some (k, d))
               end;
    pairs ← keyed sort_key objects;
    let ties := operation pairs default in
    mret (snd <$> ties).

(** The tie-resolution options of the configuration. *)
Record TieConfig := {
  STATE_TIE_RESOLUTION : strategy;
  MIP_TIE_RESOLUTION : strategy;
  PURVIEW_TIE_RESOLUTION : strategy;
}.

Definition states (config : TieConfig) (rias : list PhiObject)
    (strategy : option strategy) (default : option PhiObject) :
    traced (list PhiObject) :=
  let strategy := fallback strategy (STATE_TIE_RESOLUTION config) in
  resolve rias strategy all_maxima default.

Definition partitions (config : TieConfig) (mips : list PhiObject)
    (strategy : option strategy) (default : option PhiObject) :
    traced (list PhiObject) :=
  let strategy := fallback strategy (MIP_TIE_RESOLUTION config) in
  resolve mips strategy all_minima default.

Definition purviews (config : TieConfig) (mice : list PhiObject)
    (strategy : option strategy) (default : option PhiObject) :
    traced (list PhiObject) :=
  let strategy := fallback strategy (PURVIEW_TIE_RESOLUTION config) in
  resolve mice strategy all_maxima default.

(** ** Composition *)

(** What [phi_structure] consumes from the distinction and relation
    computations.  A [CauseEffectStructure] is the list of its
    distinctions. *)
Class CompositionCapability (Subsystem Distinction Relations : Type) := {
  (** [distinction.phi] *)
  distinction_phi : Distinction → Qc;
  (** whether a distinction is congruent with a system state *)
  is_congruent : Distinction → option SystemStateSpecification → bool;
  (** [relations.sum_phi()] *)
  relations_sum_phi : Relations → Qc;
  (** [compute.ces(subsystem, ...)] *)
  compute_ces : Subsystem → list Distinction;
  (** [compute_relations(distinctions, ...)] *)
  compute_relations : list Distinction → Relations;
}.

Record PhiStructure (Distinction Relations : Type) := {
  ps_sia : SystemIrreducibilityAnalysis;
  ps_distinctions : list Distinction;
  ps_relations : Relations;
}.
Arguments ps_sia {Distinction Relations} p.
Arguments ps_distinctions {Distinction Relations} p.
Arguments ps_relations {Distinction Relations} p.

Section Composition.
Context {Subsystem tensor Distinction Relations : Type}.
Context `{!SubsystemCapability Subsystem tensor}.
Context `{!CompositionCapability Subsystem Distinction Relations}.
Variable config : Config.

(** Modelled from the spec: [CauseEffectStructure.resolve_congruence],
    which filters the distinctions for congruence with a system state. *)
Definition resolve_congruence (distinctions : list Distinction)
    (system_state : option SystemStateSpecification) : list Distinction :=
  filter (λ d, is_congruent d system_state = true) distinctions.

(** [distinctions.phis] *)
Definition phis (distinctions : list Distinction) : list Qc :=
  distinction_phi <$> distinctions.

Definition sum_phi_relations (p : PhiStructure Distinction Relations) : Qc :=
  relations_sum_phi (ps_relations p).

Definition sum_phi_distinctions (p : PhiStructure Distinction Relations) : Qc :=
  py_sum (phis (ps_distinctions p)).

Definition big_phi (p : PhiStructure Distinction Relations) : Qc :=
  sum_phi_distinctions p + sum_phi_relations p.

Definition phi_structure (subsystem : Subsystem)
    (sia_arg : option SystemIrreducibilityAnalysis)
    (distinctions : option (list Distinction))
    (relations : option Relations) :
    result (PhiStructure Distinction Relations) :=
  (* Analyze irreducibility if not provided *)
  sia ← match sia_arg with
         | Some s => Ok s
         | None => snd <$> returned (sia config subsystem None None None None)
         end;
  (* Compute distinctions if not provided *)
  let distinctions := fallback distinctions (compute_ces subsystem) in
  (* Filter out incongruent distinctions *)
  let distinctions := resolve_congruence distinctions (sia_system_state sia) in
  (* Compute relations if not provided *)
  let relations := fallback relations (compute_relations distinctions) in
  mret {| ps_sia := sia;
          ps_distinctions := distinctions;
          ps_relations := relations |}.

End Composition.

(** ** Serialisation, truthiness and order of the results *)

(** [SystemIrreducibilityAnalysis.to_json]: a copy of the attributes of the
    object without [_ties].  [del dct["_ties"]] raises [KeyError] when the
    attribute was never set. *)
Definition to_json (store : gmap ref (list sia_obj)) (self : sia_obj) :
    result SystemIrreducibilityAnalysis :=
  match store !! self.1 with
  | Some _ => Ok self.2
  | None => Err KeyError
  end.

(** [PhiStructure.__getattr__] for ["phi"], one of the attributes inherited
    from the SIA. *)
Definition ps_phi {Distinction Relations}
    (p : PhiStructure Distinction Relations) : Qc :=
  sia_phi (ps_sia p).

(** [PhiStructure.order_by] *)
Definition ps_order_by {Distinction Relations}
    (p : PhiStructure Distinction Relations) : Qc :=
  ps_phi p.

(** [PhiStructure.__bool__] *)
Definition ps_bool {Distinction Relations}
    (p : PhiStructure Distinction Relations) : bool :=
  sia_bool (ps_sia p).

(** [NullPhiStructure()]; [no_relations] is [ConcreteRelations([])]. *)
Definition NullPhiStructure {Distinction Relations} (no_relations : Relations) :
    PhiStructure Distinction Relations :=
  {| ps_sia := NullSystemIrreducibilityAnalysis None None None None;
     ps_distinctions := [];
     ps_relations := no_relations |}.

(** ** Complexes *)

(** What a generator has produced when it is exhausted: the items it
    yielded and, when an exception ended it, that exception. *)
Record generated (A : Type) := Generated {
  yielded : list A;
  raised : option exn;
}.
Arguments Generated {A} yielded raised.
Arguments yielded {A} g.
Arguments raised {A} g.

(** [for x in xs: yield f(x)] *)
Fixpoint yield_each {A B} (f : A → result B) (xs : list A) : generated B :=
  match xs with
  | [] => Generated [] None
  | x :: rest =>
      match f x with
      | Err e => Generated [] (Some e)
      | Ok y =>
          let g := yield_each f rest in
          Generated (y :: yielded g) (raised g)
      end
  end.

(** [filter(None, g)]: the truthy items. *)
Definition filter_truthy {A} (truthy : A → bool) (g : generated A) :
    generated A :=
  Generated (filter (λ x, truthy x = true) (yielded g)) (raised g).

(** [max(g, default=d)]; [gt] is the [>] of the items. *)
Definition py_max_default {A B} (gt : A → A → bool) (g : generated A)
    (d : B) : result (A + B) :=
  match raised g with
  | Some e => Err e
  | None =>
      match yielded g with
      | [] => Ok (inr d)
      | x :: rest => Ok (inl (foldl (λ m y, if gt y m then y else m) x rest))
      end
  end.

Section Complexes.
Context {Subsystem tensor : Type} `{!SubsystemCapability Subsystem tensor}.
Context {Network State Distinction Relations : Type}.
Variable config : Config.
(** [network.node_indices] *)
Variable network_node_indices : Network → list nat.
(** [reachable_subsystems(network, indices, state)] *)
Variable reachable_subsystems : Network → list nat → State → list Subsystem.
(** [>] on SIAs, which [cmp.Orderable] provides *)
Variable sia_gt : sia_obj → sia_obj → bool.
(** [ConcreteRelations([])] *)
Variable no_relations : Relations.

(** [all_complexes]; the keyword arguments are those of [sia]. *)
Definition all_complexes (network : Network) (state : State)
    (repertoire_distance : option string)
    (directions : option (list Direction)) (partition_scheme : option string)
    (partitions : option (list Partition)) : generated sia_obj :=
  yield_each
    (λ subsystem,
       returned (sia config subsystem repertoire_distance directions
                   partition_scheme partitions))
    (reachable_subsystems network (network_node_indices network) state).

Definition irreducible_complexes (network : Network) (state : State)
    (repertoire_distance : option string)
    (directions : option (list Direction)) (partition_scheme : option string)
    (partitions : option (list Partition)) : generated sia_obj :=
  filter_truthy (λ s : sia_obj, sia_bool s.2)
    (all_complexes network state repertoire_distance directions
       partition_scheme partitions).

Definition maximal_complex (network : Network) (state : State)
    (repertoire_distance : option string)
    (directions : option (list Direction)) (partition_scheme : option string)
    (partitions : option (list Partition)) :
    result (sia_obj + PhiStructure Distinction Relations) :=
  py_max_default sia_gt
    (irreducible_complexes network state repertoire_distance directions
       partition_scheme partitions)
    (NullPhiStructure no_relations).

End Complexes.

(** ** Utilities ([pyphi/utils.py]) *)

(** [l[i]] for a Python sequence: a negative index counts from the end;
    [None] stands for [IndexError]. *)
Definition py_index {A} (l : list A) (i : Z) : option A :=
  let n := Z.of_nat (length l) in
  if bool_decide (0 ≤ i < n)%Z then l !! Z.to_nat i
  else if bool_decide (- n ≤ i < 0)%Z then l !! Z.to_nat (n + i)
  else None.

(** [state_of]: the state-tuple of the given nodes. *)
Definition state_of {A} (nodes : list Z) (network_state : list A) :
    option (list A) :=
  match nodes with
  | [] => Some []
  | _ => mapM (py_index network_state) nodes
  end.

(** [phi_eq] and [abs] are with the numbers, above. *)

(** [range(n)] *)
Definition py_range (n : Z) : list Z := seqZ 0 n.

(** The inner loop of [bipartition_indices]: [part[bit].append(n)] for
    [n] in [range(N)], with [bit = (i >> n) & 1]; the result is
    [(part[0], part[1])]. *)
Definition bipartition_part (N : Z) (i : Z) : list Z * list Z :=
  foldl
    (λ part n,
       let bit := Z.land (Z.shiftr i n) 1 in
       if bool_decide (bit = 0%Z) then (part.1 ++ [n], part.2)
       else (part.1, part.2 ++ [n]))
    ([], []) (py_range N).

Definition bipartition_indices (N : Z) : list (list Z * list Z) :=
  if bool_decide (N ≤ 0)%Z then []
  else
    (λ i, let part := bipartition_part N i in (part.2, part.1))
    <$> py_range (2 ^ (N - 1)).

(** [idx[::-1]] for a 2-tuple *)
Definition swap_parts {A} (idx : A * A) : A * A := (idx.2, idx.1).

Definition directed_bipartition_indices (N : Z) : list (list Z * list Z) :=
  let indices := bipartition_indices N in
  indices ++ (swap_parts <$> reverse indices).

(** [tuple(a[i] for i in idx)] *)
Definition py_take {A} (a : list A) (idx : list Z) : option (list A) :=
  mapM (py_index a) idx.

(** [bipartition]: the bipartitions of a sequence. *)
Definition bipartition {A} (a : list A) : option (list (list A * list A)) :=
  mapM
    (λ '(part0_idx, part1_idx),
       p0 ← py_take a part0_idx;
       p1 ← py_take a part1_idx;
       Some (p0, p1))
    (bipartition_indices (Z.of_nat (length a))).

Definition directed_bipartition {A} (a : list A) :
    option (list (list A * list A)) :=
  mapM
    (λ '(part0_idx, part1_idx),
       p0 ← py_take a part0_idx;
       p1 ← py_take a part1_idx;
       Some (p0, p1))
    (directed_bipartition_indices (Z.of_nat (length a))).

Definition directed_bipartition_of_one {A} (a : list A) :
    option (list (list A * list A)) :=
  filter (λ partition : list A * list A,
            length partition.1 = 1%nat ∨ length partition.2 = 1%nat)
  <$> directed_bipartition a.

(** [itertools.product((0, 1), repeat=n)]: the leftmost position varies
    slowest. *)
Fixpoint product01 (n : nat) : list (list nat) :=
  match n with
  | O => [[]]
  | S n' =>
      first ← [0; 1]%nat;
      rest ← product01 n';
      [first :: rest]
  end.

(** [all_states]: all binary states of [n] elements; [product] raises
    [ValueError] on a negative [repeat]. *)
Definition all_states (n : Z) (holi : bool) : result (list (list nat)) :=
  if bool_decide (n = 0)%Z then Ok []
  else if bool_decide (n < 0)%Z then Err ValueError
  else
    Ok ((λ state, if holi then state else reverse state)
        <$> product01 (Z.to_nat n)).

(** The position of a state in LOLI order ("low-order bit is the lowest
    index"): the state read as a binary number whose lowest-order bit is the
    first node. *)
Definition loli_index (state : list nat) : nat :=
  foldr (λ b acc, b + 2 * acc)%nat 0%nat state.

(** [repertoire_shape] *)
Definition repertoire_shape (purview : list Z) (N : Z) : list nat :=
  (λ i, if bool_decide (i ∈ purview) then 2%nat else 1%nat) <$> py_range N.

(** ** Nodes ([pyphi/node.py]) *)

Section Node.
(** States are integers or strings ([Union[int|str]], and [None] when no
    state is given); the node TPM is kept as an opaque value. *)
Context {V : Type} `{EqDecision V} {TPM : Type}.
(** [hash(self.tpm)], where [self.tpm] is [dataarray.data]: [None] when the
    value cannot be hashed, as a numpy array cannot, and [hash] raises
    [TypeError]. *)
Variable hash_tpm : TPM → option Z.
(** [hash] of the tuple [(index, hash(tpm), inputs, outputs, state_space,
    state)], whose other items are integers, frozensets and tuples of
    states. *)
Variable hash_fields : Z → Z → gset Z → gset Z → list V → V → Z.

(** The [attrs] of the [xr.DataArray] a node is built from, with its
    [data]. *)
Record NodeAttrs := {
  attr_index : Z;
  attr_node_labels : list string;
  attr_inputs : gset Z;
  attr_outputs : gset Z;
  attr_state_space : list V;
  attr_state : V;
  attr_data : TPM;
}.

Record Node := {
  node_index : Z;
  node_node_labels : list string;
  node_inputs : gset Z;
  node_outputs : gset Z;
  node_tpm : TPM;
  node_state_space : list V;
  node_state : V;
  node_hash : Z;
}.

(** The [state_space] setter; [len(set(state_space))] counts the distinct
    states. *)
Definition set_state_space (value : list V) : result (list V) :=
  let state_space := value in
  if bool_decide (length (remove_dups state_space) < length state_space)%nat
  then Err ValueError
  else if bool_decide (length state_space < 2)%nat then Err ValueError
  else Ok state_space.

(** The [state] setter. *)
Definition set_state (state_space : list V) (value : V) : result V :=
  if bool_decide (value ∉ state_space) then Err ValueError else Ok value.

(** [Node.__init__] *)
Definition Node_init (dataarray : NodeAttrs) : result Node :=
  state_space ← set_state_space (attr_state_space dataarray);
  state ← set_state state_space (attr_state dataarray);
  tpm_hash ← match hash_tpm (attr_data dataarray) with
             | Some h => Ok h
             | None => Err TypeError
             end;
  Ok {| node_index := attr_index dataarray;
        node_node_labels := attr_node_labels dataarray;
        node_inputs := attr_inputs dataarray;
        node_outputs := attr_outputs dataarray;
        node_tpm := attr_data dataarray;
        node_state_space := state_space;
        node_state := state;
        node_hash :=
          hash_fields (attr_index dataarray) tpm_hash
            (attr_inputs dataarray) (attr_outputs dataarray)
            state_space state |}.

End Node.

Arguments NodeAttrs : clear implicits.
Arguments Node : clear implicits.

(** ** A small concrete system

    Two nodes, whose two directed bipartitions are the candidates.  The
    integration of a cut is read off the cut itself, which is enough to run
    the definitions above on explicit inputs. *)
Module Toy.

Record subsystem := {
  nodes : list nat;
  current_cut : Partition;
  ii_cause : Qc;
  ii_effect : Qc;
}.

Definition cut_phi (direction : Direction) (c : Partition) : Qc :=
  match direction with
  | CAUSE => py_len (from_nodes c)
  | EFFECT => py_len (from_nodes c) + py_len (to_nodes c)
  end.

Definition bipartition (a b : list nat) : Partition :=
  {| from_nodes := a; to_nodes := b; own_normalization_factor := None |}.

#[global] Instance capability : SubsystemCapability subsystem unit := {|
  node_indices := nodes;
  node_labels := λ _, ["A"; "B"];
  proper_state := λ _, [1; 0]%nat;
  cut := current_cut;
  apply_cut := λ s p,
    {| nodes := nodes s; current_cut := p;
       ii_cause := ii_cause s; ii_effect := ii_effect s |};
  repertoire := λ _ _ _ _, ();
  forward_repertoire := λ _ _ _ _, ();
  squeeze_at := λ t _, t;
  subsystem_evaluate_partition := λ _ direction _ _ c _ _ _,
    {| ria_phi := cut_phi direction c |};
  subsystem_intrinsic_information := λ s direction _ _ _,
    {| state := [1; 0]%nat;
       intrinsic_information :=
         match direction with
         | CAUSE => ii_cause s
         | EFFECT => ii_effect s
         end |};
  system_partitions := λ _ _ _ _,
    [bipartition [0%nat] [1%nat]; bipartition [1%nat] [0%nat]];
|}.

Definition config : Config :=
  {| REPERTOIRE_DISTANCE := "GENERALIZED_INTRINSIC_DIFFERENCE";
     REPERTOIRE_DISTANCE_INFORMATION := "GENERALIZED_INTRINSIC_DIFFERENCE";
     SYSTEM_PARTITION_TYPE := "SET_UNI/BI";
     EPSILON := 1 / Qc_of_Z (10 ^ 13) |}.

(** The intact two-node system, with the given intrinsic information. *)
Definition system (cause_ii effect_ii : Qc) : subsystem :=
  {| nodes := [0; 1]%nat;
     current_cut := bipartition [] [];
     ii_cause := cause_ii;
     ii_effect := effect_ii |}.

(** A distinction: its phi and the states it specifies. *)
Record distinction := {
  d_phi : Qc;
  d_cause_state : list nat;
  d_effect_state : list nat;
}.

#[global] Instance composition :
    CompositionCapability subsystem distinction (list Qc) := {|
  distinction_phi := d_phi;
  is_congruent := λ d system_state,
    match system_state with
    | None => true
    | Some s =>
        bool_decide (d_cause_state d = state (ss_cause s)) &&
        bool_decide (d_effect_state d = state (ss_effect s))
    end;
  relations_sum_phi := py_sum;
  compute_ces := λ _, [];
  compute_relations := λ _, [];
|}.

(** An SIA of the two-node system whose specified states are [(1, 0)]. *)
Definition winning_sia : SystemIrreducibilityAnalysis :=
  {| sia_phi := 1;
     sia_partition := Some (bipartition [0%nat] [1%nat]);
     sia_normalized_phi := 1;
     sia_cause := None;
     sia_effect := None;
     sia_system_state :=
       Some (system_intrinsic_information config (system 1 1) None);
     sia_current_state := Some [1; 0]%nat;
     sia_node_indices := Some [0; 1]%nat;
     sia_node_labels := Some ["A"; "B"];
     sia_reasons := None |}.

(** A distinction that specifies the states of [winning_sia], and one that
    specifies another cause state. *)
Definition congruent_distinction : distinction :=
  {| d_phi := 1; d_cause_state := [1; 0]%nat; d_effect_state := [1; 0]%nat |}.
Definition incongruent_distinction : distinction :=
  {| d_phi := 2; d_cause_state := [0; 0]%nat; d_effect_state := [1; 0]%nat |}.

(** An SIA with the given phi and normalized phi, as an object. *)
Definition scored (r : ref) (phi normalized_phi : Qc) : sia_obj :=
  (r,
   {| sia_phi := phi;
      sia_partition := Some (bipartition [0%nat] [1%nat]);
      sia_normalized_phi := normalized_phi;
      sia_cause := None;
      sia_effect := None;
      sia_system_state := None;
      sia_current_state := None;
      sia_node_indices := None;
      sia_node_labels := None;
      sia_reasons := None |}).

Definition null : sia_obj :=
  (0%nat,
   NullSystemIrreducibilityAnalysis None None None
     (Some [NO_VALID_PARTITIONS])).

(** The number [n * 10 ** -14], a fraction of the tolerance. *)
Definition tiny (n : Z) : Qc := Qc_of_Z n / Qc_of_Z (10 ^ 14).

(** The two candidates of the specification's tie-resolution example. *)
Definition A : PhiObject :=
  {| po_phi := 1; po_normalized_phi := 1; po_purview := [0; 1]%nat;
     po_pmi_at_specified := None |}.
Definition B : PhiObject :=
  {| po_phi := 1; po_normalized_phi := 1; po_purview := [0; 1; 2]%nat;
     po_pmi_at_specified := None |}.

End Toy.

(** * Properties *)

(** ** The order on keys *)

Lemma Qc_lt_irrefl (q : Qc) : ¬ q < q.
Proof. apply (irreflexivity Qclt). Qed.

Lemma Fin_inj (p q : Qc) : Fin p = Fin q → p = q.
Proof. congruence. Qed.

Lemma xnum_ltb_irrefl x : xnum_ltb x x = false.
Proof.
  destruct x as [| |q|]; simpl; try done.
  apply bool_decide_eq_false, Qc_lt_irrefl.
Qed.

Lemma xnum_ltb_trans x y z :
  xnum_ltb x y = true → xnum_ltb y z = true → xnum_ltb x z = true.
Proof.
  destruct x, y, z; simpl; try done.
  rewrite !bool_decide_eq_true. apply Qclt_trans.
Qed.

Lemma xnum_ltb_total x y :
  x ≠ NaN → y ≠ NaN →
  xnum_ltb x y = true ∨ x = y ∨ xnum_ltb y x = true.
Proof.
  destruct x as [| |p|], y as [| |q|]; simpl; auto; try done.
  intros _ _. rewrite !bool_decide_eq_true.
  destruct (Qc_dec p q) as [[?|?]| ->]; auto.
Qed.

Lemma lex_ltb_irrefl a : lex_ltb a a = false.
Proof.
  unfold lex_ltb. rewrite bool_decide_eq_true_2 by done.
  apply xnum_ltb_irrefl.
Qed.

Lemma lex_ltb_trans a b c :
  lex_ltb a b = true → lex_ltb b c = true → lex_ltb a c = true.
Proof.
  destruct a as [a1 a2], b as [b1 b2], c as [c1 c2].
  unfold lex_ltb. simpl.
  repeat case_bool_decide; subst; try done; eauto using xnum_ltb_trans.
  all: intros H1 H2; pose proof (xnum_ltb_trans _ _ _ H1 H2) as H3.
  all: by rewrite xnum_ltb_irrefl in H3.
Qed.

Lemma lex_ltb_total a b :
  finite_key a → finite_key b →
  lex_ltb a b = true ∨ a = b ∨ lex_ltb b a = true.
Proof.
  intros (a1 & a2 & ->) (b1 & b2 & ->).
  unfold lex_ltb. simpl.
  destruct (decide (a1 = b1)) as [->|Hne].
  - rewrite !bool_decide_eq_true_2 by done.
    destruct (xnum_ltb_total (Fin a2) (Fin b2)) as [?|[Heq|?]];
      [done|done|auto| |auto].
    apply Fin_inj in Heq as ->. auto.
  - rewrite (bool_decide_eq_false_2 (Fin a1 = Fin b1)) by congruence.
    rewrite (bool_decide_eq_false_2 (Fin b1 = Fin a1)) by congruence.
    destruct (xnum_ltb_total (Fin a1) (Fin b1)) as [?|[Heq|?]];
      [done|done|auto| |auto].
    by apply Fin_inj in Heq.
Qed.

Lemma key_le_refl a : key_le a a.
Proof. by right. Qed.

Lemma key_le_trans a b c : key_le a b → key_le b c → key_le a c.
Proof.
  intros [Hab| ->] [Hbc| ->]; unfold key_le; eauto using lex_ltb_trans.
Qed.

Lemma key_le_antisym a b : key_le a b → key_le b a → a = b.
Proof.
  intros [Hab| ->] [Hba|Heq]; try done.
  pose proof (lex_ltb_trans _ _ _ Hab Hba) as H.
  by rewrite lex_ltb_irrefl in H.
Qed.

Lemma lex_ltb_neq a b : lex_ltb a b = true → a ≠ b.
Proof. intros H ->. by rewrite lex_ltb_irrefl in H. Qed.

Lemma key_not_ltb_le a b :
  finite_key a → finite_key b → lex_ltb a b = false → key_le b a.
Proof.
  intros Ha Hb H. destruct (lex_ltb_total a b Ha Hb) as [?|[->|?]];
    [congruence | by right | by left].
Qed.

Create HintDb keys.
#[global] Hint Resolve key_le_refl key_le_trans : keys.

(** ** The comparisons of [PyPhiFloat] *)

Lemma Qcopp_lt_iff (p q : Qc) : - p < - q ↔ q < p.
Proof.
  split; intros Hlt; apply Qcnot_le_lt; intros Hle.
  - apply Qcopp_le_compat in Hle. by apply (Qclt_not_le _ _ Hlt).
  - apply Qcopp_le_compat in Hle. rewrite !Qcopp_involutive in Hle.
    by apply (Qclt_not_le _ _ Hlt).
Qed.

Lemma py_abs_opp (x : Qc) : py_abs (- x) = py_abs x.
Proof.
  unfold py_abs.
  destruct (Qc_dec x 0) as [[Hlt|Hgt]| ->].
  - rewrite (bool_decide_eq_true_2 (x < 0)) by done.
    rewrite bool_decide_eq_false_2; [done|].
    intros Hopp. apply (Qclt_not_le _ _ Hopp).
    apply Qclt_le_weak. rewrite <- (Qcopp_involutive 0). by apply Qcopp_lt_iff.
  - rewrite (bool_decide_eq_false_2 (x < 0)).
    + rewrite bool_decide_eq_true_2; [by rewrite Qcopp_involutive|].
      change 0 with (- 0). by apply Qcopp_lt_iff.
    + intros Hlt. apply (Qclt_not_le _ _ Hlt). by apply Qclt_le_weak.
  - reflexivity.
Qed.

Lemma py_abs_0 : py_abs 0 = 0.
Proof. unfold py_abs. by rewrite bool_decide_eq_false_2. Qed.

Lemma Qcminus_diag (x : Qc) : x - x = 0.
Proof. unfold Qcminus. apply Qcplus_opp_r. Qed.

Lemma phi_eq_refl (EPSILON x : Qc) : 0 ≤ EPSILON → phi_eq EPSILON x x = true.
Proof.
  intros Hpos. unfold phi_eq. rewrite Qcminus_diag, py_abs_0.
  by apply bool_decide_eq_true.
Qed.

Lemma phi_eq_opp (EPSILON x y : Qc) :
  phi_eq EPSILON (- x) (- y) = phi_eq EPSILON x y.
Proof.
  unfold phi_eq. f_equal.
  replace (- x - - y) with (- (x - y)) by ring.
  by rewrite py_abs_opp.
Qed.

Lemma pyphi_eqb_fin (EPSILON p q : Qc) :
  pyphi_eqb EPSILON (Fin p) (Fin q) = phi_eq EPSILON p q.
Proof. done. Qed.

Lemma separated_eqb (EPSILON : Qc) x y :
  0 ≤ EPSILON → well_separated EPSILON x y →
  pyphi_eqb EPSILON x y = bool_decide (x = y).
Proof.
  intros Hpos Hsep. destruct x as [| |p|], y as [| |q|]; try done.
  rewrite pyphi_eqb_fin. destruct Hsep as [->|Hne].
  - rewrite phi_eq_refl by done. by rewrite bool_decide_eq_true_2.
  - rewrite Hne. symmetry. apply bool_decide_eq_false.
    intros [= ->]. by rewrite phi_eq_refl in Hne.
Qed.

Lemma separated_ltb (EPSILON : Qc) x y :
  0 ≤ EPSILON → well_separated EPSILON x y →
  pyphi_ltb EPSILON x y = xnum_ltb x y.
Proof.
  intros Hpos Hsep. unfold pyphi_ltb. rewrite separated_eqb by done.
  case_bool_decide as Heq.
  - subst. by rewrite xnum_ltb_irrefl.
  - by rewrite andb_true_r.
Qed.

Lemma separated_opp (EPSILON : Qc) x y :
  well_separated EPSILON x y →
  well_separated EPSILON (xnum_opp x) (xnum_opp y).
Proof.
  destruct x as [| |p|], y as [| |q|]; try done. simpl.
  rewrite phi_eq_opp. intros [->|?]; auto.
Qed.

Lemma separated_key_ltb (EPSILON : Qc) (a b : key) :
  0 ≤ EPSILON →
  well_separated EPSILON a.1 b.1 → well_separated EPSILON a.2 b.2 →
  key_ltb EPSILON a b = lex_ltb a b.
Proof.
  intros Hpos H1 H2. unfold key_ltb, lex_ltb.
  rewrite !separated_eqb, !separated_ltb by done.
  case_bool_decide; [|done].
  case_bool_decide as Heq; [|done].
  rewrite Heq. by rewrite xnum_ltb_irrefl.
Qed.

Lemma separated_key_eqb (EPSILON : Qc) (a b : key) :
  0 ≤ EPSILON →
  well_separated EPSILON a.1 b.1 → well_separated EPSILON a.2 b.2 →
  key_eqb EPSILON a b = bool_decide (a = b).
Proof.
  intros Hpos H1 H2. unfold key_eqb.
  rewrite !separated_eqb by done. destruct a, b. simpl.
  repeat case_bool_decide; simplify_eq; done.
Qed.

(** No key compares equal to the seed [(inf, -inf)] of the loop. *)
Lemma key_eqb_seed (EPSILON : Qc) (k : key) :
  key_eqb EPSILON k (PosInf, NegInf) = false.
Proof. destruct k as [[| |q|] ?]; done. Qed.

(** ** The minimisation loop *)

Lemma filter_none {A} (P : A → Prop) `{!∀ x, Decision (P x)} (l : list A) :
  (∀ x, x ∈ l → ¬ P x) → filter P l = [].
Proof.
  induction l as [|x l IH]; intros Hl; [done|].
  rewrite filter_cons_False by (apply Hl; left).
  apply IH. intros y Hy. apply Hl. by right.
Qed.

Section Loop.
Context {C : Type} `{!PhiValued C}.
Variable EPSILON : Qc.

Lemma find_mip_snoc (default_sia : ref * C) sias c :
  find_mip EPSILON default_sia (sias ++ [c])
  = mip_step EPSILON (find_mip EPSILON default_sia sias) c.
Proof. unfold find_mip. by rewrite foldl_snoc. Qed.

(** What the loop does, whatever the keys are: the winner is the default or
    a candidate; [mip_key] is the seed as long as the default stands and the
    winner's key afterwards; the tie list is the winner followed by the
    candidates delivered after it whose key compares equal to [mip_key]; no
    candidate delivered after the winner compares less. *)
Lemma find_mip_shape (default_sia : ref * C) sias :
  let st := find_mip EPSILON default_sia sias in
  ∃ before after,
    default_sia :: sias = before ++ mip_sia st :: after ∧
    mip_key st = match before with
                 | [] => (PosInf, NegInf)
                 | _ => key_of (mip_sia st)
                 end ∧
    ties st
    = mip_sia st
      :: filter (λ c, key_eqb EPSILON (key_of c) (mip_key st) = true) after ∧
    (∀ c, c ∈ after → key_ltb EPSILON (key_of c) (mip_key st) = false) ∧
    (before ≠ [] → ∃ k, key_ltb EPSILON (key_of (mip_sia st)) k = true).
Proof.
  induction sias as [|c sias IH] using rev_ind.
  - exists [], []. split_and!; try done. intros c Hc.
    by apply elem_of_nil in Hc.
  - destruct IH as (before & after & Hsplit & Hkey & Hties & Hafter & Hwon).
    rewrite find_mip_snoc. cbn zeta.
    set (st := find_mip EPSILON default_sia sias) in *.
    unfold mip_step. fold (key_of c).
    destruct (key_ltb EPSILON (key_of c) (mip_key st)) eqn:Hlt; simpl.
    + exists (before ++ mip_sia st :: after), [].
      split_and!.
      * change (default_sia :: sias ++ [c])
          with ((default_sia :: sias) ++ [c]).
        by rewrite Hsplit.
      * by destruct before.
      * done.
      * intros c' Hc'. by apply elem_of_nil in Hc'.
      * intros _. by exists (mip_key st).
    + destruct (key_eqb EPSILON (key_of c) (mip_key st)) eqn:Heq; simpl.
      * exists before, (after ++ [c]). split_and!.
        -- change (default_sia :: sias ++ [c])
             with ((default_sia :: sias) ++ [c]).
           by rewrite Hsplit, <- app_assoc.
        -- done.
        -- rewrite Hties, list.filter_app, filter_cons_True by done.
           by rewrite filter_nil.
        -- intros c' [Hc'| ->%list_elem_of_singleton]%elem_of_app; auto.
        -- done.
      * exists before, (after ++ [c]). split_and!.
        -- change (default_sia :: sias ++ [c])
             with ((default_sia :: sias) ++ [c]).
           by rewrite Hsplit, <- app_assoc.
        -- done.
        -- rewrite Hties, list.filter_app, filter_cons_False
             by (rewrite Heq; done).
           by rewrite filter_nil, app_nil_r.
        -- intros c' [Hc'| ->%list_elem_of_singleton]%elem_of_app; auto.
        -- done.
Qed.

Lemma find_mip_head (default_sia : ref * C) sias :
  head (ties (find_mip EPSILON default_sia sias))
  = Some (mip_sia (find_mip EPSILON default_sia sias)).
Proof.
  destruct (find_mip_shape default_sia sias) as (? & ? & _ & _ & -> & _).
  done.
Qed.

Lemma find_mip_winner_tied (default_sia : ref * C) sias :
  mip_sia (find_mip EPSILON default_sia sias)
  ∈ ties (find_mip EPSILON default_sia sias).
Proof.
  destruct (find_mip_shape default_sia sias) as (? & ? & _ & _ & -> & _).
  left.
Qed.

Lemma find_mip_winner_origin (default_sia : ref * C) sias :
  mip_sia (find_mip EPSILON default_sia sias) = default_sia ∨
  mip_sia (find_mip EPSILON default_sia sias) ∈ sias.
Proof.
  destruct (find_mip_shape default_sia sias) as (before & after & Hsplit & _).
  assert (mip_sia (find_mip EPSILON default_sia sias) ∈ default_sia :: sias)
    as Hin by (rewrite Hsplit; set_solver).
  apply elem_of_cons in Hin as [?|?]; auto.
Qed.

Lemma find_mip_ties_origin (default_sia : ref * C) sias t :
  t ∈ ties (find_mip EPSILON default_sia sias) → t ∈ default_sia :: sias.
Proof.
  destruct (find_mip_shape default_sia sias)
    as (before & after & Hsplit & _ & -> & _).
  rewrite Hsplit. intros [->|Ht%list_elem_of_filter]%elem_of_cons.
  - set_solver.
  - set_solver.
Qed.

(** Attaching one and the same list to every object of a list leaves each
    of them with that list. *)
Lemma attach_ties_keeps (ties : list (ref * C)) l store r :
  store !! r = Some ties →
  foldl (λ store tied_mip, set_ties store tied_mip ties) store l !! r
  = Some ties.
Proof.
  revert store. induction l as [|x l IH]; intros store Hr; [done|].
  simpl. apply IH. unfold set_ties.
  destruct (decide (x.1 = r)) as [->|Hne].
  - apply lookup_insert_eq.
  - by rewrite lookup_insert_ne.
Qed.

Lemma attach_ties_lookup (ties : list (ref * C)) l store t :
  t ∈ l →
  foldl (λ store tied_mip, set_ties store tied_mip ties) store l !! t.1
  = Some ties.
Proof.
  revert store. induction l as [|x l IH]; intros store Hin.
  - by apply elem_of_nil in Hin.
  - simpl. apply elem_of_cons in Hin as [->|Hin]; [|by apply IH].
    apply attach_ties_keeps. unfold set_ties. apply lookup_insert_eq.
Qed.

Lemma ties_of_attached (ties : list (ref * C)) store t :
  t ∈ ties → ties_of (attach_ties ties store) t = ties.
Proof.
  intros Hin. unfold ties_of, get_ties, attach_ties.
  by rewrite (attach_ties_lookup ties ties store t Hin).
Qed.

Lemma attach_ties_other (ties : list (ref * C)) l store r :
  r ∉ l.*1 →
  foldl (λ store tied_mip, set_ties store tied_mip ties) store l !! r
  = store !! r.
Proof.
  revert store. induction l as [|x l IH]; intros store Hr; [done|].
  simpl. rewrite IH.
  - unfold set_ties. apply lookup_insert_ne. intros Heq. apply Hr.
    rewrite fmap_cons, Heq. left.
  - intros Hin. apply Hr. rewrite fmap_cons. by right.
Qed.

Lemma same_ref_same_object (l : list (ref * C)) x y :
  NoDup l.*1 → x ∈ l → y ∈ l → x.1 = y.1 → x = y.
Proof.
  induction l as [|a l IH]; intros Hnd Hx Hy Heq.
  - by apply elem_of_nil in Hx.
  - rewrite fmap_cons in Hnd. apply list.NoDup_cons in Hnd as [Ha Hnd].
    apply elem_of_cons in Hx as [->|Hx]; apply elem_of_cons in Hy as [->|Hy].
    + done.
    + exfalso. apply Ha. rewrite Heq. by apply list_elem_of_fmap_2.
    + exfalso. apply Ha. rewrite <- Heq. by apply list_elem_of_fmap_2.
    + by apply IH.
Qed.

(** *** Candidates without near-ties *)

Hypothesis EPSILON_nonneg : 0 ≤ EPSILON.

Lemma keys_separated_app (l1 l2 : list (ref * C)) :
  keys_separated EPSILON (l1 ++ l2) → keys_separated EPSILON l1.
Proof.
  intros Hsep c d Hc Hd. apply Hsep; apply elem_of_app; by left.
Qed.

Lemma separated_finite_key (sias : list (ref * C)) c :
  keys_separated EPSILON sias → c ∈ sias → finite_key (key_of c).
Proof.
  intros Hsep Hc. destruct (Hsep c c Hc Hc) as [H1 H2].
  unfold key_of, sia_minimization_key, well_separated in *.
  destruct (get_normalized_phi c.2) as [| |n|]; try done.
  destruct (get_phi c.2) as [| |p|]; try done.
  by exists n, (- p).
Qed.

Lemma separated_key_compare (sias : list (ref * C)) c d :
  keys_separated EPSILON sias → c ∈ sias → d ∈ sias →
  key_ltb EPSILON (key_of c) (key_of d) = lex_ltb (key_of c) (key_of d) ∧
  key_eqb EPSILON (key_of c) (key_of d)
  = bool_decide (key_of c = key_of d).
Proof.
  intros Hsep Hc Hd. destruct (Hsep c d Hc Hd) as [H1 H2].
  split.
  - apply separated_key_ltb; [done|done|]. by apply separated_opp.
  - apply separated_key_eqb; [done|done|]. by apply separated_opp.
Qed.

(** The loop invariant on candidates without near-ties, once a candidate
    has been seen: the winner is a candidate, [mip_key] is its key and a
    lower bound of all keys seen, and [ties] lists, in order, the candidates
    seen whose key is [mip_key]. *)
Lemma find_mip_invariant (default_sia : ref * C) sias :
  keys_separated EPSILON sias →
  sias ≠ [] →
  let st := find_mip EPSILON default_sia sias in
  mip_sia st ∈ sias ∧
  mip_key st = key_of (mip_sia st) ∧
  (∀ c, c ∈ sias → key_le (mip_key st) (key_of c)) ∧
  ties st = filter (λ c, key_of c = mip_key st) sias.
Proof.
  induction sias as [|c sias IH] using rev_ind; [done|intros Hsep _].
  rewrite find_mip_snoc. destruct (decide (sias = [])) as [->|Hne].
  - (* the first candidate beats the seed *)
    clear IH. simpl. unfold mip_step. simpl.
    destruct (separated_finite_key [c] c Hsep) as (n & p & Hk);
      [set_solver|].
    unfold key_of in Hk. rewrite Hk. simpl.
    split_and!; [set_solver|done| |].
    + intros c' ->%list_elem_of_singleton. unfold key_of. rewrite Hk.
      apply key_le_refl.
    + rewrite filter_cons_True; [done|]. by unfold key_of.
  - pose proof (keys_separated_app _ _ Hsep) as Hsep'.
    destruct (IH Hsep' Hne) as (Hin & Hkey & Hmin & Hties). clear IH.
    set (st := find_mip EPSILON default_sia sias) in *.
    assert (c ∈ sias ++ [c]) as Hc by set_solver.
    assert (mip_sia st ∈ sias ++ [c]) as Hw by set_solver.
    destruct (separated_key_compare _ _ _ Hsep Hc Hw) as [Hltb Heqb].
    rewrite <- Hkey in Hltb, Heqb.
    unfold mip_step. fold (key_of c). rewrite Hltb, Heqb.
    destruct (lex_ltb (key_of c) (mip_key st)) eqn:Hlt; simpl.
    + (* a strictly better candidate resets the tie list *)
      split_and!; [set_solver|done| |].
      * intros c' [Hc'| ->%list_elem_of_singleton]%elem_of_app;
          [|apply key_le_refl].
        apply key_le_trans with (mip_key st); [by left|auto].
      * rewrite list.filter_app, filter_cons_True, filter_nil by done.
        rewrite filter_none; [done|]. intros c' Hc' Heq.
        pose proof (Hmin c' Hc') as Hle. rewrite Heq in Hle.
        pose proof (key_le_antisym _ _ Hle (or_introl Hlt)) as Habs.
        by apply lex_ltb_neq in Hlt.
    + case_bool_decide as Heq; simpl.
      * (* a tied candidate is appended *)
        split_and!; [set_solver|done| |].
        -- intros c' [Hc'| ->%list_elem_of_singleton]%elem_of_app; [auto|].
           rewrite Heq. apply key_le_refl.
        -- by rewrite list.filter_app, filter_cons_True, filter_nil, Hties.
      * (* a worse candidate is skipped *)
        split_and!; [set_solver|done| |].
        -- intros c' [Hc'| ->%list_elem_of_singleton]%elem_of_app; [auto|].
           apply key_not_ltb_le; [ |rewrite Hkey|done];
             by apply (separated_finite_key (sias ++ [c])).
        -- rewrite list.filter_app, filter_cons_False, filter_nil by done.
           by rewrite app_nil_r.
Qed.

End Loop.




Lemma keys_separated_perm {C : Type} `{!PhiValued C} (EPSILON : Qc)
    (sias sias' : list (ref * C)) :
  sias ≡ₚ sias' → keys_separated EPSILON sias → keys_separated EPSILON sias'.
Proof.
  intros Hperm Hsep c d Hc Hd. apply Hsep; by rewrite Hperm.
Qed.




(** ** The short circuit of [sia] *)

Lemma has_no_cause_or_effect_spec system_state reason :
  reason ∈ _has_no_cause_or_effect system_state ↔
  (reason = NO_CAUSE ∧ intrinsic_information (ss_cause system_state) ≤ 0) ∨
  (reason = NO_EFFECT ∧ intrinsic_information (ss_effect system_state) ≤ 0).
Proof.
  unfold _has_no_cause_or_effect. simpl.
  repeat case_bool_decide; set_solver.
Qed.



(** ** Partition evaluation *)

Lemma min_fold_spec (l : list Qc) (m : Qc) :
  let r := foldl (λ m y, if bool_decide (y < m) then y else m) m l in
  r ≤ m ∧ (∀ x, x ∈ l → r ≤ x) ∧ (r = m ∨ r ∈ l).
Proof.
  revert m. induction l as [|y l IH]; intros m; simpl.
  - split_and!; [apply Qcle_refl|set_solver|by left].
  - case_bool_decide as Hlt.
    + destruct (IH y) as (Hle & Hall & Hmem). split_and!.
      * eapply Qcle_trans; [exact Hle|by apply Qclt_le_weak].
      * intros x [->|Hx]%elem_of_cons; auto.
      * right. destruct Hmem as [->|Hmem]; [left|by right].
    + destruct (IH m) as (Hle & Hall & Hmem). split_and!; [done| |].
      * intros x [->|Hx]%elem_of_cons; [|auto].
        eapply Qcle_trans; [exact Hle|by apply Qcnot_lt_le].
      * destruct Hmem as [->|Hmem]; [by left|right; by right].
Qed.

Lemma py_min_spec (xs : list Qc) :
  xs ≠ [] →
  ∃ m, py_min xs = Ok m ∧ (∀ x, x ∈ xs → m ≤ x) ∧ m ∈ xs.
Proof.
  destruct xs as [|x xs]; [done|intros _]. eexists. split; [done|].
  destruct (min_fold_spec xs x) as (Hle & Hall & Hmem). split.
  - intros y [->|Hy]%elem_of_cons; auto.
  - destruct Hmem as [->|Hmem]; [left|by right].
Qed.

Lemma py_len_mul {A B} (a : list A) (b : list B) :
  Qc_of_Z (Z.of_nat (length a * length b)) = py_len a * py_len b.
Proof. unfold py_len. by rewrite Nat2Z.inj_mul, Z2Qc_inj_mul. Qed.

Lemma normalization_factor_default partition :
  own_normalization_factor partition = None →
  from_nodes partition ≠ [] → to_nodes partition ≠ [] →
  normalization_factor partition
  = Ok (1 / (py_len (from_nodes partition) * py_len (to_nodes partition))).
Proof.
  intros Hown Hfrom Hto. unfold normalization_factor. rewrite Hown.
  case_decide as Hzero.
  - apply Nat.eq_mul_0 in Hzero as [?%nil_length_inv|?%nil_length_inv]; done.
  - by rewrite py_len_mul.
Qed.

Lemma normalization_factor_empty_side partition :
  own_normalization_factor partition = None →
  from_nodes partition = [] ∨ to_nodes partition = [] →
  normalization_factor partition = Err ZeroDivisionError.
Proof.
  intros Hown Hside. unfold normalization_factor. rewrite Hown.
  rewrite decide_True; [done|].
  destruct Hside as [-> | ->]; simpl; lia.
Qed.

Lemma py_len_pos {A} (l : list A) : l ≠ [] → 0 < py_len l.
Proof.
  intros Hne. unfold py_len. rewrite <- Z2Qc_inj_0.
  apply (proj1 (Z2Qc_inj_lt _ _)).
  destruct l; [done|]. cbn [length]. lia.
Qed.

(** How a successful partition evaluation was put together. *)
Lemma evaluate_partition_inv {Subsystem tensor : Type}
    `{!SubsystemCapability Subsystem tensor} (config : Config)
    partition (subsystem : Subsystem) system_state repertoire_distance
    directions s :
  evaluate_partition config partition subsystem system_state
    repertoire_distance directions = Ok s →
  ∃ norm,
    normalization_factor partition = Ok norm ∧
    sia_normalized_phi s = sia_phi s * norm.
Proof.
  unfold evaluate_partition.
  destruct (py_min _) as [phi|e]; simpl; [|done].
  destruct (normalization_factor partition) as [norm|e]; simpl; [|done].
  intros [= <-]. by exists norm.
Qed.



(** C10. For a partition without a [normalization_factor] method of its own,
    the default factor [1 / (len(from_nodes) * len(to_nodes))] is defined,
    and then positive, exactly when both [from_nodes] and [to_nodes] are
    non-empty; with an empty side [normalization_factor] raises
    [ZeroDivisionError]. *)
Theorem default_normalization_factor_domain (partition : Partition) :
  own_normalization_factor partition = None →
  ((∃ q, normalization_factor partition = Ok q) ↔
     from_nodes partition ≠ [] ∧ to_nodes partition ≠ []) ∧
  (∀ q, normalization_factor partition = Ok q →
     q = 1 / (py_len (from_nodes partition) * py_len (to_nodes partition)) ∧
     0 < q) ∧
  (from_nodes partition = [] ∨ to_nodes partition = [] →
     normalization_factor partition = Err ZeroDivisionError).
Proof.
  intros Hown.
  assert (∀ q, normalization_factor partition = Ok q →
            from_nodes partition ≠ [] ∧ to_nodes partition ≠ []) as Hdefined.
  { intros q Hq. split; intros Hnil.
    - rewrite normalization_factor_empty_side in Hq by auto. done.
    - rewrite normalization_factor_empty_side in Hq by auto. done. }
  split_and!.
  - split; [intros [q Hq]; eauto|].
    intros [Hfrom Hto]. eexists.
    by apply normalization_factor_default.
  - intros q Hq. destruct (Hdefined q Hq) as [Hfrom Hto].
    rewrite normalization_factor_default in Hq by done.
    injection Hq as <-. split; [done|].
    unfold Qcdiv. rewrite Qcmult_1_l. apply Qcinv_pos.
    apply Qcmult_pos_pos; by apply py_len_pos.
  - by apply normalization_factor_empty_side.
Qed.

(** The cuts [{0} → {1}] and [{} → {0, 1}]. *)
Lemma default_normalization_factor_domain_witness :
  (normalization_factor (Toy.bipartition [0%nat] [1%nat]) = Ok (1 / Qc_of_Z 1) ∧
   0 < 1 / Qc_of_Z 1) ∧
  normalization_factor (Toy.bipartition [] [0; 1]%nat) = Err ZeroDivisionError.
Proof.
  split.
  - split; [reflexivity|].
    exact (proj2
             (proj1 (proj2 (default_normalization_factor_domain
                              (Toy.bipartition [0%nat] [1%nat]) eq_refl))
                _ eq_refl)).
  - exact (proj2 (proj2 (default_normalization_factor_domain
                           (Toy.bipartition [] [0; 1]%nat) eq_refl))
             (or_introl eq_refl)).
Defined.

(** ** Zero phi and the short circuit of the search *)

Lemma py_abs_nonneg (x : Qc) : 0 ≤ x → py_abs x = x.
Proof.
  intros Hx. unfold py_abs. rewrite bool_decide_eq_false_2; [done|].
  by apply Qcle_not_lt.
Qed.

Lemma phi_eq_0_r (EPSILON x : Qc) :
  0 ≤ x → phi_eq EPSILON x 0 = bool_decide (x ≤ EPSILON).
Proof.
  intros Hx. unfold phi_eq.
  replace (x - 0) with x by ring. by rewrite py_abs_nonneg.
Qed.

(** How the loop compares the key of an SIA of non-negative phi and
    normalized phi with the key [(0, -0)] of a zero-phi SIA. *)
Lemma key_ltb_zero (EPSILON n p : Qc) :
  0 ≤ EPSILON → 0 ≤ n → 0 ≤ p →
  key_ltb EPSILON (Fin n, Fin (- p)) (Fin 0, Fin (- 0)) = true ↔
  n ≤ EPSILON ∧ EPSILON < p.
Proof.
  intros Hpos Hn Hp. unfold key_ltb, pyphi_ltb.
  cbn [fst snd xnum_ltb]. rewrite !pyphi_eqb_fin, phi_eq_opp.
  rewrite !phi_eq_0_r by done.
  case_bool_decide as Hne.
  - case_bool_decide as Hpe.
    + split; [done|]. intros [_ Hlt]. by apply Qclt_not_le in Hlt.
    + apply Qcnot_le_lt in Hpe. rewrite andb_true_r, bool_decide_eq_true.
      split; [done|]. intros _.
      apply Qcopp_lt_iff. by apply Qcle_lt_trans with EPSILON.
  - rewrite andb_true_r, bool_decide_eq_true. split.
    + intros Hlt. by apply Qclt_not_le in Hlt.
    + by intros [? _].
Qed.

(** C5, as amended.  An evaluated SIA with [phi = 0] has a minimisation key
    that is lexicographically at most the key of every evaluated SIA whose
    phi is [≥ 0] and whose normalization factor is positive, and it is the
    falsy outcome the search short-circuits on.  The loop, however, compares
    keys with the tolerance of [PyPhiFloat]: there no such SIA whose
    normalized phi exceeds the tolerance, or whose phi is zero, scores lower
    than the zero-phi one, whereas one whose normalized phi is within the
    tolerance of zero and whose phi exceeds the tolerance does. *)
Theorem zero_phi_key_is_least {Subsystem tensor : Type}
    `{!SubsystemCapability Subsystem tensor} (config : Config)
    (subsystem : Subsystem) (system_state : SystemStateSpecification)
    (repertoire_distance : option string)
    (directions : option (list Direction))
    (partition0 partition : Partition)
    (s0 s : SystemIrreducibilityAnalysis) (norm : Qc) :
  evaluate_partition config partition0 subsystem system_state
    repertoire_distance directions = Ok s0 →
  evaluate_partition config partition subsystem system_state
    repertoire_distance directions = Ok s →
  sia_phi s0 = 0 →
  0 ≤ sia_phi s →
  normalization_factor partition = Ok norm →
  0 < norm →
  0 ≤ EPSILON config →
  key_le (Fin (sia_normalized_phi s0), Fin (- sia_phi s0))
    (Fin (sia_normalized_phi s), Fin (- sia_phi s)) ∧
  (EPSILON config < sia_normalized_phi s ∨ sia_phi s = 0 →
   key_ltb (EPSILON config) (sia_minimization_key s)
     (sia_minimization_key s0) = false) ∧
  (sia_normalized_phi s ≤ EPSILON config → EPSILON config < sia_phi s →
   key_ltb (EPSILON config) (sia_minimization_key s)
     (sia_minimization_key s0) = true) ∧
  is_falsy s0 = true.
Proof.
  intros Heval0 Heval Hzero Hnonneg Hnorm Hpos Heps.
  apply evaluate_partition_inv in Heval0 as (norm0 & _ & Hn0).
  apply evaluate_partition_inv in Heval as (norm' & Hnorm' & Hn).
  assert (norm' = norm) as -> by congruence.
  rewrite Hzero, Qcmult_0_l in Hn0.
  assert (key_ltb (EPSILON config) (sia_minimization_key s)
            (sia_minimization_key s0) = true ↔
          sia_normalized_phi s ≤ EPSILON config ∧
          EPSILON config < sia_phi s) as Hscore.
  { unfold sia_minimization_key.
    cbn [get_normalized_phi get_phi SIA_PhiValued xnum_opp].
    rewrite Hn0, Hzero. apply key_ltb_zero; [done| |done].
    rewrite Hn. destruct (Qcle_lt_or_eq _ _ Hnonneg) as [Hlt|Heq].
    - by apply Qclt_le_weak, Qcmult_pos_pos.
    - by rewrite <- Heq, Qcmult_0_l. }
  split_and!.
  - unfold key_le. rewrite Hn0, Hn, Hzero.
    apply Qcle_lt_or_eq in Hnonneg as [Hlt| <-].
    + left. unfold lex_ltb. simpl.
      assert (0 < sia_phi s * norm) as Hprod by by apply Qcmult_pos_pos.
      rewrite bool_decide_eq_false_2.
      * by apply bool_decide_eq_true.
      * intros Heq. apply Fin_inj in Heq. rewrite <- Heq in Hprod.
        by apply Qc_lt_irrefl in Hprod.
    + right. by rewrite Qcmult_0_l.
  - intros Hhigh. apply not_true_is_false. intros Hlow.
    apply Hscore in Hlow as [Hle Hlt].
    destruct Hhigh as [Hhigh|Hnull].
    + by apply (Qclt_not_le _ _ Hhigh).
    + rewrite Hnull in Hlt. by apply (Qclt_not_le _ _ Hlt).
  - intros Hle Hlt. by apply Hscore.
  - unfold is_falsy, sia_bool, is_positive. rewrite Hzero.
    rewrite bool_decide_eq_false_2; [done|apply Qc_lt_irrefl].
Qed.

(** In the two-node system: a cut with its own normalization factor [1] and
    no source node has phi [0]; the cut [{0} → {1}] has phi [1]. *)
Lemma zero_phi_key_is_least_witness :
  let subsystem := Toy.system 1 1 in
  let system_state := system_intrinsic_information Toy.config subsystem None in
  let partition0 :=
    {| from_nodes := []; to_nodes := [0; 1]%nat;
       own_normalization_factor := Some 1 |} in
  let partition := Toy.bipartition [0%nat] [1%nat] in
  ∃ s0 s,
    evaluate_partition Toy.config partition0 subsystem system_state None None
    = Ok s0 ∧
    evaluate_partition Toy.config partition subsystem system_state None None
    = Ok s ∧
    sia_phi s0 = 0 ∧
    0 ≤ sia_phi s ∧
    0 ≤ EPSILON Toy.config ∧
    key_le (Fin (sia_normalized_phi s0), Fin (- sia_phi s0))
      (Fin (sia_normalized_phi s), Fin (- sia_phi s)) ∧
    (EPSILON Toy.config < sia_normalized_phi s ∨ sia_phi s = 0 →
     key_ltb (EPSILON Toy.config) (sia_minimization_key s)
       (sia_minimization_key s0) = false) ∧
    (sia_normalized_phi s ≤ EPSILON Toy.config →
     EPSILON Toy.config < sia_phi s →
     key_ltb (EPSILON Toy.config) (sia_minimization_key s)
       (sia_minimization_key s0) = true) ∧
    is_falsy s0 = true.
Proof.
  intros subsystem system_state partition0 partition.
  eexists _, _.
  split; [reflexivity|]. split; [reflexivity|].
  assert (sia_phi
            (match evaluate_partition Toy.config partition0 subsystem
                     system_state None None with
             | Ok s0 => s0
             | Err _ => NullSystemIrreducibilityAnalysis None None None None
             end) = 0) as Hzero.
  { apply Qc_is_canon. reflexivity. }
  assert (0 ≤ sia_phi
            (match evaluate_partition Toy.config partition subsystem
                     system_state None None with
             | Ok s => s
             | Err _ => NullSystemIrreducibilityAnalysis None None None None
             end)) as Hnonneg.
  { discriminate. }
  assert (0 ≤ EPSILON Toy.config) as Heps by discriminate.
  split; [exact Hzero|]. split; [exact Hnonneg|]. split; [exact Heps|].
  refine (zero_phi_key_is_least Toy.config subsystem system_state None None
            partition0 partition _ _ (1 / Qc_of_Z 1) eq_refl eq_refl
            Hzero Hnonneg eq_refl _ Heps).
  reflexivity.
Defined.

(** C5, as stated, fails under the comparison the search uses.  In the
    two-node system with the tolerance [10 ** -13], the cut [{0} → {1}] with
    its own normalization factor [10 ** -14] has phi [1] and normalized phi
    [10 ** -14]: its key compares less than the key of the zero-phi cut, and
    the search over the two cuts, which stops at the zero-phi outcome,
    returns it and not the zero-phi SIA. *)
Lemma zero_phi_key_counterexample :
  let subsystem := Toy.system 1 1 in
  let system_state := system_intrinsic_information Toy.config subsystem None in
  let partition0 :=
    {| from_nodes := []; to_nodes := [0; 1]%nat;
       own_normalization_factor := Some 1 |} in
  let partition :=
    {| from_nodes := [0%nat]; to_nodes := [1%nat];
       own_normalization_factor := Some (Toy.tiny 1) |} in
  ∃ s0 s,
    evaluate_partition Toy.config partition0 subsystem system_state None None
    = Ok s0 ∧
    evaluate_partition Toy.config partition subsystem system_state None None
    = Ok s ∧
    sia_phi s0 = 0 ∧
    sia_phi s = 1 ∧
    normalization_factor partition = Ok (Toy.tiny 1) ∧
    0 < Toy.tiny 1 ∧
    key_ltb (EPSILON Toy.config) (sia_minimization_key s)
      (sia_minimization_key s0) = true ∧
    returned (sia Toy.config subsystem None None None
                (Some [partition; partition0]))
    = Ok (1%nat, s) ∧
    evaluated (sia Toy.config subsystem None None None
                 (Some [partition; partition0]))
    = [partition; partition0].
Proof.
  intros subsystem system_state partition0 partition.
  eexists _, _.
  split; [reflexivity|]. split; [reflexivity|].
  split_and!.
  - apply Qc_is_canon. reflexivity.
  - apply Qc_is_canon. reflexivity.
  - reflexivity.
  - reflexivity.
  - vm_compute. reflexivity.
  - vm_compute. reflexivity.
  - vm_compute. reflexivity.
Qed.

(** ** Truthiness *)

(** C6. The truthiness of an SIA, the null variant included, is [True]
    exactly when its phi is greater than zero; every
    [NullSystemIrreducibilityAnalysis] is falsy. *)
Theorem sia_bool_iff_positive :
  (∀ s : SystemIrreducibilityAnalysis, sia_bool s = true ↔ 0 < sia_phi s) ∧
  (∀ system_state node_indices node_labels reasons,
     sia_bool (NullSystemIrreducibilityAnalysis system_state node_indices
                 node_labels reasons) = false).
Proof.
  split.
  - intros s. unfold sia_bool, is_positive. apply bool_decide_eq_true.
  - intros. reflexivity.
Qed.

(** ** Tie resolution *)

Lemma outcome_bind {A B} (t : traced A) (k : A → traced B) :
  outcome (t ≫= k)
  = match outcome t with
    | Ok a => outcome (k a)
    | Err e => Err e
    end.
Proof. unfold mbind, traced_bind. by destruct (outcome t). Qed.

(** C7. With the bare strategy ["NONE"], [resolve] yields the objects
    unchanged, or the supplied default when there are none, and invokes no
    registered scoring function, so in particular not the one registered
    under ["NONE"]; that function raises on every object. *)
Theorem resolve_none_sentinel :
  (∀ objects operation default,
     resolve objects (StrategyName "NONE") operation default
     = Traced [] (Ok (iter_with_default objects default))) ∧
  (∀ (objects : list PhiObject) default,
     objects ≠ [] → iter_with_default objects default = objects) ∧
  (∀ d : PhiObject, iter_with_default [] (Some d) = [d]) ∧
  (∃ f, phi_object_tie_resolution_strategies !! "NONE" = Some f ∧
        ∀ m, f m = Err NotImplementedError) ∧
  (∀ m, invoke_strategy "NONE" m = Traced ["NONE"] (Err NotImplementedError)).
Proof.
  split_and!.
  - intros. reflexivity.
  - intros [|o objects] default Hne; [done|]. by destruct default.
  - intros. reflexivity.
  - eexists. split; [reflexivity|]. intros m. reflexivity.
  - intros m. reflexivity.
Qed.

Lemma score_tuple_spec (names : list string) (obj : PhiObject) (ks : list Qc) :
  outcome (score_tuple names obj) = Ok ks ↔
  Forall2
    (λ s k, ∃ f, phi_object_tie_resolution_strategies !! s = Some f ∧
                 f obj = Ok k)
    names ks.
Proof.
  revert ks. induction names as [|s names IH]; intros ks; simpl.
  - split.
    + intros [= <-]. constructor.
    + intros ->%Forall2_nil_inv_l. done.
  - rewrite outcome_bind. unfold invoke_strategy.
    destruct (phi_object_tie_resolution_strategies !! s) as [f|] eqn:Hs; simpl.
    + destruct (f obj) as [k|e] eqn:Hf; simpl.
      * rewrite outcome_bind.
        destruct (outcome (score_tuple names obj)) as [ks'|e] eqn:Hrest; simpl.
        -- split.
           ++ intros [= <-]. constructor; [by exists f|by apply IH].
           ++ intros (k' & ks'' & (f' & Hf' & Hk') & Hall & ->)%Forall2_cons_inv_l.
              apply IH in Hall. congruence.
        -- split; [done|].
           intros (k' & ks'' & _ & Hall & ->)%Forall2_cons_inv_l.
           apply IH in Hall. done.
      * split; [done|].
        intros (k' & ks'' & (f' & Hf' & Hk') & _ & ->)%Forall2_cons_inv_l.
        congruence.
    + split; [done|].
      intros (k' & ks'' & (f' & Hf' & Hk') & _ & ->)%Forall2_cons_inv_l.
      congruence.
Qed.

Lemma keyed_spec sort_key (objects : list PhiObject) ranked :
  outcome (keyed sort_key objects) = Ok ranked →
  ranked.*2 = objects ∧
  Forall (λ e, outcome (sort_key e.2) = Ok e.1) ranked.
Proof.
  revert ranked. induction objects as [|obj objects IH]; intros ranked; simpl.
  - intros [= <-]. split; [done|constructor].
  - rewrite outcome_bind.
    destruct (outcome (sort_key obj)) as [k|e] eqn:Hk; [|done].
    rewrite outcome_bind.
    destruct (outcome (keyed sort_key objects)) as [ks|e] eqn:Hks; [|done].
    simpl. intros [= <-]. destruct (IH ks eq_refl) as [Hobjs Hall].
    split; [by rewrite fmap_cons, Hobjs|by constructor].
Qed.

Lemma resolve_list_outcome objects names operation :
  outcome (resolve objects (StrategyList names) operation None)
  = (λ ranked, snd <$> operation ranked None)
    <$> outcome (keyed (score_tuple names) objects).
Proof.
  unfold resolve. rewrite bool_decide_eq_false_2 by done.
  rewrite outcome_bind. simpl. rewrite outcome_bind.
  change (_strategies_to_key_function (StrategyList names))
    with (score_tuple names).
  by destruct (outcome (keyed (score_tuple names) objects)).
Qed.

Lemma all_extrema_no_default {A} worse (seq : list (list Qc * A)) :
  all_extrema worse seq None
  = filter (λ e, forallb (λ e', negb (worse e.1 e'.1)) seq = true) seq.
Proof. by destruct seq. Qed.

Lemma all_extrema_elem {A} worse (seq : list (list Qc * A)) e :
  e ∈ all_extrema worse seq None ↔
  e ∈ seq ∧ ∀ e', e' ∈ seq → worse e.1 e'.1 = false.
Proof.
  rewrite all_extrema_no_default, list_elem_of_filter, forallb_forall.
  split.
  - intros [Hall Hin]. split; [done|].
    intros e' He'. apply negb_true_iff, Hall. by apply list_elem_of_In.
  - intros [Hin Hall]. split; [|done].
    intros e' He'. apply negb_true_iff, Hall. by apply list_elem_of_In.
Qed.

(** C8. [resolve] ranks every candidate by the tuple of the scores of the
    named strategies, taken in the given order, and yields every candidate
    whose tuple is extremal under the reduction: all the maxima by default,
    all the minima for the [partitions] resolver.  For [A(phi=1,
    purview_size=2)] and [B(phi=1, purview_size=3)], the strategies
    [["PHI", "PURVIEW_SIZE"]] with all-maxima yield exactly [B], and
    [["NEGATIVE_PURVIEW_SIZE"]] alone yields exactly [A]. *)
Theorem resolve_yields_all_extrema :
  (∀ names obj ks,
     outcome (score_tuple names obj) = Ok ks ↔
     Forall2
       (λ s k, ∃ f, phi_object_tie_resolution_strategies !! s = Some f ∧
                    f obj = Ok k)
       names ks) ∧
  (∀ objects names ranked,
     outcome (keyed (score_tuple names) objects) = Ok ranked →
     ranked.*2 = objects ∧
     Forall (λ e, outcome (score_tuple names e.2) = Ok e.1) ranked ∧
     outcome (resolve objects (StrategyList names) all_maxima None)
     = Ok (all_maxima ranked None).*2 ∧
     (∀ e, e ∈ all_maxima ranked None ↔
           e ∈ ranked ∧ ∀ e', e' ∈ ranked → tuple_ltb e.1 e'.1 = false) ∧
     (∀ config,
        outcome (partitions config objects (Some (StrategyList names)) None)
        = Ok (all_minima ranked None).*2) ∧
     (∀ e, e ∈ all_minima ranked None ↔
           e ∈ ranked ∧ ∀ e', e' ∈ ranked → tuple_ltb e'.1 e.1 = false)) ∧
  (∀ objects s operation default,
     s ≠ "NONE" →
     resolve objects (StrategyName s) operation default
     = resolve objects (StrategyList [s]) operation default) ∧
  outcome (resolve [Toy.A; Toy.B] (StrategyList ["PHI"; "PURVIEW_SIZE"])
             all_maxima None) = Ok [Toy.B] ∧
  outcome (resolve [Toy.A; Toy.B] (StrategyList ["NEGATIVE_PURVIEW_SIZE"])
             all_maxima None) = Ok [Toy.A].
Proof.
  split_and!.
  - apply score_tuple_spec.
  - intros objects names ranked Hranked.
    destruct (keyed_spec _ _ _ Hranked) as [Hobjs Hall].
    split_and!; try done.
    + by rewrite resolve_list_outcome, Hranked.
    + apply all_extrema_elem.
    + intros config.
      change (partitions config objects (Some (StrategyList names)) None)
        with (resolve objects (StrategyList names) all_minima None).
      by rewrite resolve_list_outcome, Hranked.
    + intros e. unfold all_minima. by rewrite all_extrema_elem.
  - intros objects s operation default Hs. unfold resolve.
    rewrite !bool_decide_eq_false_2; [done|done|congruence].
  - vm_compute. reflexivity.
  - vm_compute. reflexivity.
Qed.

(** ** Composition *)

(** C9, as the code has it. For an already computed SIA, distinction set and
    relation set, [phi_structure] returns a structure that keeps the SIA and
    the relations and, of the supplied distinctions, those congruent with the
    system state of the SIA; its [big_phi] is the sum of the phi values of
    these congruent distinctions plus [sum_phi()] of the supplied relations.
    When every supplied distinction is congruent, that is the sum over the
    supplied distinctions. *)
Theorem phi_structure_big_phi {Subsystem tensor Distinction Relations : Type}
    `{!SubsystemCapability Subsystem tensor}
    `{!CompositionCapability Subsystem Distinction Relations}
    (config : Config) (subsystem : Subsystem)
    (sia : SystemIrreducibilityAnalysis) (distinctions : list Distinction)
    (relations : Relations) :
  ∃ p,
    phi_structure config subsystem (Some sia) (Some distinctions)
      (Some relations) = Ok p ∧
    ps_sia p = sia ∧
    ps_relations p = relations ∧
    ps_distinctions p
    = filter (λ d, is_congruent d (sia_system_state sia) = true) distinctions ∧
    big_phi p
    = py_sum (distinction_phi <$>
                filter (λ d, is_congruent d (sia_system_state sia) = true)
                  distinctions)
      + relations_sum_phi relations ∧
    ((∀ d, d ∈ distinctions → is_congruent d (sia_system_state sia) = true) →
     big_phi p
     = py_sum (distinction_phi <$> distinctions) + relations_sum_phi relations).
Proof.
  eexists. split; [reflexivity|]. simpl.
  split_and!; try done.
  intros Hall. unfold big_phi, sum_phi_distinctions, sum_phi_relations, phis.
  simpl. unfold resolve_congruence.
  replace (filter _ distinctions) with distinctions; [done|].
  clear -Hall. induction distinctions as [|d l IH]; [done|].
  rewrite filter_cons_True by (apply Hall; left).
  f_equal. apply IH. intros d' Hd'. apply Hall. by right.
Qed.

(** C9, as stated, fails on a supplied distinction that is not congruent:
    with the distinctions of phi [1] (congruent) and [2] (incongruent) and no
    relation, [big_phi] is [1], not [1 + 2]. *)
Lemma phi_structure_big_phi_counterexample :
  let distinctions :=
    [Toy.congruent_distinction; Toy.incongruent_distinction] in
  let relations : list Qc := [] in
  ∃ p,
    phi_structure Toy.config (Toy.system 1 1) (Some Toy.winning_sia)
      (Some distinctions) (Some relations) = Ok p ∧
    big_phi p = 1 ∧
    big_phi p
    ≠ py_sum (distinction_phi <$> distinctions) + relations_sum_phi relations.
Proof.
  intros distinctions relations.
  eexists. split; [reflexivity|]. split.
  - apply Qc_is_canon. reflexivity.
  - intros Heq. apply (f_equal (λ q : Qc, Qnum q)) in Heq.
    vm_compute in Heq. discriminate Heq.
Qed.

(** * Further properties of the code *)

(** ** Short-circuit reasons *)

Lemma no_reasons_iff (system_state : SystemStateSpecification) :
  _has_no_cause_or_effect system_state = [] ↔
  0 < intrinsic_information (ss_cause system_state) ∧
  0 < intrinsic_information (ss_effect system_state).
Proof.
  split.
  - intros Hnil. split; apply Qcnot_le_lt; intros Hle.
    + assert (NO_CAUSE ∈ _has_no_cause_or_effect system_state) as Hin
        by (apply has_no_cause_or_effect_spec; auto).
      rewrite Hnil in Hin. by apply elem_of_nil in Hin.
    + assert (NO_EFFECT ∈ _has_no_cause_or_effect system_state) as Hin
        by (apply has_no_cause_or_effect_spec; auto).
      rewrite Hnil in Hin. by apply elem_of_nil in Hin.
  - intros [Hc He]. apply elem_of_nil_inv. intros reason.
    rewrite has_no_cause_or_effect_spec.
    intros [[_ Hle]|[_ Hle]].
    + by apply (Qclt_not_le _ _ Hc).
    + by apply (Qclt_not_le _ _ He).
Qed.

(** The reasons are empty exactly when both directions have positive
    intrinsic information; they are listed cause first, and the reason
    [NO_VALID_PARTITIONS] is never among them. *)
Theorem has_no_cause_or_effect_cases (system_state : SystemStateSpecification) :
  (_has_no_cause_or_effect system_state = [] ↔
     0 < intrinsic_information (ss_cause system_state) ∧
     0 < intrinsic_information (ss_effect system_state)) ∧
  (intrinsic_information (ss_cause system_state) ≤ 0 →
   intrinsic_information (ss_effect system_state) ≤ 0 →
   _has_no_cause_or_effect system_state = [NO_CAUSE; NO_EFFECT]) ∧
  NO_VALID_PARTITIONS ∉ _has_no_cause_or_effect system_state.
Proof.
  split_and!.
  - apply no_reasons_iff.
  - intros Hc He. unfold _has_no_cause_or_effect. simpl.
    by rewrite !bool_decide_eq_true_2.
  - rewrite has_no_cause_or_effect_spec. intros [[? _]|[? _]]; done.
Qed.

(** ** The winner and its ties *)

(** Whatever the keys are, the SIA returned is the first element of its tie
    list; it is the null default or one of the candidates, and the tie list
    is the winner followed by exactly the candidates delivered after it
    whose key compares equal, under the tolerance, to the key the loop holds
    (the winner's key, or the seed [(inf, -inf)] as long as the default
    stands); no candidate delivered after the winner compares less than that
    key. *)
Theorem winner_then_later_ties {C : Type} `{!PhiValued C} (EPSILON : Qc)
    (default_sia : ref * C) (sias : list (ref * C)) :
  let winner := mip_sia (find_mip EPSILON default_sia sias) in
  let tied := tie_list EPSILON default_sia sias in
  head tied = Some winner ∧
  ∃ before after,
    default_sia :: sias = before ++ winner :: after ∧
    let held :=
      match before with
      | [] => (PosInf, NegInf)
      | _ => key_of winner
      end in
    tied
    = winner :: filter (λ c, key_eqb EPSILON (key_of c) held = true) after ∧
    ∀ c, c ∈ after → key_ltb EPSILON (key_of c) held = false.
Proof.
  cbn zeta. split; [apply find_mip_head|].
  destruct (find_mip_shape EPSILON default_sia sias)
    as (before & after & Hsplit & Hkey & Hties & Hafter & _).
  exists before, after. split; [done|]. cbn zeta. unfold tie_list.
  rewrite Hkey in Hties, Hafter. done.
Qed.

(** A candidate whose normalized phi is NaN is never selected and never
    tied: unless it is the default the loop started from, it is neither the
    SIA returned nor a member of the tie list. *)
Theorem nan_candidate_is_never_selected {C : Type} `{!PhiValued C}
    (EPSILON : Qc) (default_sia : ref * C) (sias : list (ref * C))
    (c : ref * C) :
  get_normalized_phi c.2 = NaN →
  c ≠ default_sia →
  c ∉ tie_list EPSILON default_sia sias ∧
  mip_sia (find_mip EPSILON default_sia sias) ≠ c.
Proof.
  intros Hnan Hdefault.
  assert (c ∉ tie_list EPSILON default_sia sias) as Hout.
  { unfold tie_list.
    destruct (find_mip_shape EPSILON default_sia sias)
      as (before & after & Hsplit & Hkey & -> & Hafter & Hwon).
    intros [->|Hc%list_elem_of_filter]%elem_of_cons.
    - destruct before as [|x before]; [by injection Hsplit|].
      destruct Hwon as [k Hk]; [done|].
      unfold key_of, sia_minimization_key, key_ltb, pyphi_ltb in Hk.
      cbn [fst snd] in Hk. rewrite Hnan in Hk. by destruct k as [[| | |] ?].
    - destruct Hc as [Heq _].
      unfold key_of, sia_minimization_key, key_eqb in Heq.
      cbn [fst snd] in Heq. rewrite Hnan in Heq.
      by destruct (mip_key _) as [[| | |] ?]. }
  split; [done|]. intros Hwinner. apply Hout. rewrite <- Hwinner.
  apply find_mip_winner_tied.
Qed.

(** Three candidates given by their floats: one of normalized phi NaN and
    two of normalized phi [1]; the tie list holds the two. *)
Lemma nan_candidate_is_never_selected_witness :
  let default : ref * Scored :=
    (0%nat, {| scored_phi := Fin 0; scored_normalized_phi := Fin 0 |}) in
  let x : ref * Scored :=
    (1%nat, {| scored_phi := Fin 1; scored_normalized_phi := NaN |}) in
  let y : ref * Scored :=
    (2%nat, {| scored_phi := Fin 1; scored_normalized_phi := Fin 1 |}) in
  let z : ref * Scored :=
    (3%nat, {| scored_phi := Fin 1; scored_normalized_phi := Fin 1 |}) in
  tie_list (EPSILON Toy.config) default [x; y; z] = [y; z] ∧
  x ∉ tie_list (EPSILON Toy.config) default [x; y; z] ∧
  mip_sia (find_mip (EPSILON Toy.config) default [x; y; z]) ≠ x.
Proof.
  intros default x y z. split; [vm_compute; reflexivity|].
  refine (nan_candidate_is_never_selected (EPSILON Toy.config) default
            [x; y; z] x eq_refl _).
  intros Heq. apply (f_equal fst) in Heq. discriminate Heq.
Defined.

(** ** What the search leaves in the store *)

(** The search attaches the tie list to the tied objects only: a candidate
    of finite normalized phi that is not the winner and whose key does not
    compare equal to the winner's keeps its [_ties] attribute as it was, so
    that, if the attribute was never set, its [ties] is the list of itself
    alone.  The default and the candidates are distinct objects. *)
Theorem losers_keep_their_ties {C : Type} `{!PhiValued C} (EPSILON : Qc)
    (default_sia : ref * C) (sias : list (ref * C))
    (store : gmap ref (list (ref * C))) (c : ref * C) :
  NoDup (default_sia :: sias).*1 →
  c ∈ sias →
  (∃ n, get_normalized_phi c.2 = Fin n) →
  c ≠ mip_sia (find_mip EPSILON default_sia sias) →
  key_eqb EPSILON (key_of c)
    (key_of (mip_sia (find_mip EPSILON default_sia sias))) = false →
  (minimize EPSILON default_sia sias store).2 !! c.1 = store !! c.1 ∧
  (store !! c.1 = None →
   ties_of (minimize EPSILON default_sia sias store).2 c = [c]).
Proof.
  intros Hnd Hc _ Hnotwinner Hkey.
  assert ((minimize EPSILON default_sia sias store).2 !! c.1 = store !! c.1)
    as Hsame.
  { unfold minimize, attach_ties. simpl. apply attach_ties_other.
    intros (t & Href & Ht)%list_elem_of_fmap.
    assert (c = t) as <-.
    { apply (same_ref_same_object (default_sia :: sias)); [done| | |done].
      - by right.
      - by eapply find_mip_ties_origin. }
    destruct (find_mip_shape EPSILON default_sia sias)
      as (before & after & Hsplit & Hheld & Hties & _).
    rewrite Hties in Ht.
    apply elem_of_cons in Ht as [?|[Heq _]%list_elem_of_filter]; [done|].
    rewrite Hheld in Heq. destruct before.
    - by rewrite key_eqb_seed in Heq.
    - by rewrite Hkey in Heq. }
  split; [done|].
  intros Hnone. unfold ties_of, get_ties. by rewrite Hsame, Hnone.
Qed.

(** The loser [(phi, normalized phi) = (2, 1)] among three results. *)
Lemma losers_keep_their_ties_witness :
  let a := Toy.scored 1%nat 2 1 in
  let b := Toy.scored 2%nat 1 (1 / 2) in
  let c := Toy.scored 3%nat 1 (1 / 2) in
  (minimize (EPSILON Toy.config) Toy.null [a; b; c] ∅).2 !! a.1
  = (∅ : gmap ref (list sia_obj)) !! a.1 ∧
  ((∅ : gmap ref (list sia_obj)) !! a.1 = None →
   ties_of (minimize (EPSILON Toy.config) Toy.null [a; b; c] ∅).2 a = [a]).
Proof.
  intros a b c.
  refine (losers_keep_their_ties (EPSILON Toy.config) Toy.null [a; b; c] ∅
            a _ _ _ _ _).
  - apply (bool_decide_unpack (NoDup [0; 1; 2; 3]%nat)). vm_compute. exact I.
  - constructor.
  - by eexists.
  - intros Heq. apply (f_equal fst) in Heq. vm_compute in Heq.
    discriminate Heq.
  - vm_compute. reflexivity.
Defined.

(** ** The three ways a search ends *)

Lemma sia_unfold {Subsystem tensor : Type}
    `{!SubsystemCapability Subsystem tensor} (config : Config)
    (subsystem : Subsystem) repertoire_distance directions partition_scheme
    partitions :
  let system_state := system_intrinsic_information config subsystem None in
  let null reasons : sia_obj :=
    (0%nat,
     NullSystemIrreducibilityAnalysis (Some system_state)
       (Some (node_indices subsystem)) (Some (node_labels subsystem))
       (Some reasons)) in
  let candidates :=
    fallback partitions
      (system_partitions (node_indices subsystem) (node_labels subsystem)
         (fallback partition_scheme (SYSTEM_PARTITION_TYPE config)) None) in
  let exec :=
    MapReduce_run
      (λ partition,
         evaluate_partition config partition subsystem system_state
           repertoire_distance directions)
      is_falsy candidates in
  sia config subsystem repertoire_distance directions partition_scheme
    partitions
  = if bool_decide (_has_no_cause_or_effect system_state ≠ []) then
      {| returned := Ok (null (_has_no_cause_or_effect system_state));
         ties_store := ∅;
         evaluated := [] |}
    else
      match exec.1 with
      | Err e => {| returned := Err e; ties_store := ∅; evaluated := exec.2 |}
      | Ok sias =>
          let st :=
            find_mip (EPSILON config) (null [NO_VALID_PARTITIONS])
              (imap (λ i s, (S i, s)) sias) in
          {| returned := Ok (mip_sia st);
             ties_store := attach_ties (ties st) ∅;
             evaluated := exec.2 |}
      end.
Proof.
  intros system_state null candidates exec. unfold sia.
  fold system_state. case_bool_decide; [done|].
  fold candidates. subst exec.
  destruct (MapReduce_run _ is_falsy candidates) as [[sias|e] log]; done.
Qed.



(** ** Serialisation *)

(** [to_json] succeeds on the SIA that [sia] returns exactly when the search
    did not short-circuit on missing cause or effect information: after a
    search the winner carries its tie list, whereas the null SIA of the
    short circuit never had [_ties] set, and deleting the missing entry
    raises [KeyError]. *)
Theorem to_json_of_search_result {Subsystem tensor : Type}
    `{!SubsystemCapability Subsystem tensor} (config : Config)
    (subsystem : Subsystem) (repertoire_distance : option string)
    (directions : option (list Direction)) (partition_scheme : option string)
    (partitions : option (list Partition)) (result_sia : sia_obj) :
  let system_state := system_intrinsic_information config subsystem None in
  let run :=
    sia config subsystem repertoire_distance directions partition_scheme
      partitions in
  returned run = Ok result_sia →
  (_has_no_cause_or_effect system_state = [] →
   to_json (ties_store run) result_sia = Ok result_sia.2) ∧
  (_has_no_cause_or_effect system_state ≠ [] →
   to_json (ties_store run) result_sia = Err KeyError).
Proof.
  intros system_state run. subst run. rewrite sia_unfold. fold system_state.
  case_bool_decide as Hreasons.
  - simpl. intros [= <-]. split; [done|]. intros _. reflexivity.
  - destruct (MapReduce_run _ _ _).1 as [sias|e]; simpl; [|done].
    intros [= <-]. split; [|done]. intros _.
    unfold to_json, attach_ties.
    set (st := find_mip _ _ _).
    by rewrite (attach_ties_lookup (ties st) (ties st) ∅ (mip_sia st)
                  (find_mip_winner_tied _ _ _)).
Qed.

(** The search of the two-node system, which evaluates both cuts. *)
Lemma to_json_of_search_result_witness :
  let subsystem := Toy.system 1 1 in
  let system_state := system_intrinsic_information Toy.config subsystem None in
  let run := sia Toy.config subsystem None None None None in
  ∃ result_sia,
    returned run = Ok result_sia ∧
    (_has_no_cause_or_effect system_state = [] →
     to_json (ties_store run) result_sia = Ok result_sia.2) ∧
    (_has_no_cause_or_effect system_state ≠ [] →
     to_json (ties_store run) result_sia = Err KeyError).
Proof.
  intros subsystem system_state run.
  eexists. split; [reflexivity|].
  exact (to_json_of_search_result Toy.config subsystem None None None None
           _ eq_refl).
Defined.

(** ** Errors and bounds of partition evaluation *)

(** How [evaluate_partition] ends, read off its two failing calls. *)
Lemma evaluate_partition_unfold {Subsystem tensor : Type}
    `{!SubsystemCapability Subsystem tensor} (config : Config)
    partition (subsystem : Subsystem) system_state repertoire_distance
    directions :
  let integration direction :=
    integration_value config direction subsystem
      (apply_cut subsystem partition) system_state repertoire_distance in
  evaluate_partition config partition subsystem system_state
    repertoire_distance directions
  = match py_min ((λ d, ria_phi (integration d))
                    <$> fallback directions Direction_both) with
    | Err e => Err e
    | Ok phi =>
        match normalization_factor partition with
        | Err e => Err e
        | Ok norm =>
            Ok {| sia_phi := phi;
                  sia_partition := Some partition;
                  sia_normalized_phi := phi * norm;
                  sia_cause := Some (integration CAUSE);
                  sia_effect := Some (integration EFFECT);
                  sia_system_state := Some system_state;
                  sia_current_state := Some (proper_state subsystem);
                  sia_node_indices := Some (node_indices subsystem);
                  sia_node_labels := Some (node_labels subsystem);
                  sia_reasons := None |}
        end
    end.
Proof.
  intros integration. unfold evaluate_partition.
  change (py_min _)
    with (py_min ((λ d, ria_phi (integration d))
                    <$> fallback directions Direction_both)).
  destruct (py_min _) as [phi|e]; [|done]. simpl.
  by destruct (normalization_factor partition).
Qed.

(** Two ways [evaluate_partition] fails once the methods of the subsystem
    have returned: with [ValueError] when the list of requested directions
    is empty, whatever the partition, and otherwise with
    [ZeroDivisionError] when the partition has no [normalization_factor] of
    its own and one of its sides is empty. *)
Theorem evaluate_partition_errors {Subsystem tensor : Type}
    `{!SubsystemCapability Subsystem tensor} (config : Config)
    (partition : Partition) (subsystem : Subsystem)
    (system_state : SystemStateSpecification)
    (repertoire_distance : option string)
    (directions : option (list Direction)) :
  let requested := fallback directions Direction_both in
  let outcome :=
    evaluate_partition config partition subsystem system_state
      repertoire_distance directions in
  (requested = [] → outcome = Err ValueError) ∧
  (requested ≠ [] →
   own_normalization_factor partition = None →
   from_nodes partition = [] ∨ to_nodes partition = [] →
   outcome = Err ZeroDivisionError).
Proof.
  intros requested outcome. subst outcome.
  rewrite evaluate_partition_unfold. fold requested.
  destruct requested as [|d requested'] eqn:Hreq.
  - simpl. by split.
  - simpl. split; [done|].
    intros _ Hown Hside.
    by rewrite normalization_factor_empty_side.
Qed.

(** Requesting fewer directions never lowers phi, and the result only
    depends on which directions are requested, not on their order or
    repetition. *)
Theorem fewer_directions_no_lower_phi {Subsystem tensor : Type}
    `{!SubsystemCapability Subsystem tensor} (config : Config)
    (partition : Partition) (subsystem : Subsystem)
    (system_state : SystemStateSpecification)
    (repertoire_distance : option string)
    (directions1 directions2 : list Direction)
    (s1 s2 : SystemIrreducibilityAnalysis) :
  (∀ d, d ∈ directions1 → d ∈ directions2) →
  evaluate_partition config partition subsystem system_state
    repertoire_distance (Some directions1) = Ok s1 →
  evaluate_partition config partition subsystem system_state
    repertoire_distance (Some directions2) = Ok s2 →
  sia_phi s2 ≤ sia_phi s1 ∧
  ((∀ d, d ∈ directions2 → d ∈ directions1) → s1 = s2).
Proof.
  intros Hsub. rewrite !evaluate_partition_unfold. simpl.
  set (phi_of := λ d, ria_phi (integration_value config d subsystem
                                 (apply_cut subsystem partition) system_state
                                 repertoire_distance)).
  destruct (decide (directions1 = [])) as [->|Hne1]; [done|].
  destruct (decide (directions2 = [])) as [->|Hne2]; [done|].
  destruct (py_min_spec (phi_of <$> directions1)) as (m1 & -> & Hlow1 & Hin1).
  { by intros ?%fmap_nil_inv. }
  destruct (py_min_spec (phi_of <$> directions2)) as (m2 & -> & Hlow2 & Hin2).
  { by intros ?%fmap_nil_inv. }
  destruct (normalization_factor partition) as [norm|e]; [|done].
  intros [= <-] [= <-]. simpl.
  assert (m2 ≤ m1) as Hle.
  { apply Hlow2. apply list_elem_of_fmap in Hin1 as (d & -> & Hd).
    apply list_elem_of_fmap_2. auto. }
  split; [done|].
  intros Hsup.
  assert (m1 = m2) as ->; [|done].
  apply Qcle_antisym; [|done].
  apply Hlow1. apply list_elem_of_fmap in Hin2 as (d & -> & Hd).
  apply list_elem_of_fmap_2. auto.
Qed.

(** The cut [{0} → {1}] with the cause direction alone and with both. *)
Lemma fewer_directions_no_lower_phi_witness :
  let partition := Toy.bipartition [0%nat] [1%nat] in
  let subsystem := Toy.system 1 1 in
  let system_state := system_intrinsic_information Toy.config subsystem None in
  ∃ s1 s2,
    evaluate_partition Toy.config partition subsystem system_state None
      (Some [CAUSE]) = Ok s1 ∧
    evaluate_partition Toy.config partition subsystem system_state None
      (Some [EFFECT; CAUSE]) = Ok s2 ∧
    sia_phi s2 ≤ sia_phi s1 ∧
    ((∀ d, d ∈ [EFFECT; CAUSE] → d ∈ [CAUSE]) → s1 = s2).
Proof.
  intros partition subsystem system_state.
  eexists _, _. split; [reflexivity|]. split; [reflexivity|].
  refine (fewer_directions_no_lower_phi Toy.config partition subsystem
            system_state None [CAUSE] [EFFECT; CAUSE] _ _ _ eq_refl eq_refl).
  intros d Hd. apply elem_of_cons. right. exact Hd.
Defined.

Lemma Qcinv_le_1 (x : Qc) : 1 ≤ x → / x ≤ 1.
Proof.
  intros Hx.
  assert (0 < x) as Hpos.
  { eapply Qclt_le_trans; [|exact Hx]. reflexivity. }
  apply (Qcmult_le_mono_pos_r _ _ x Hpos).
  rewrite Qcmult_inv_l, Qcmult_1_l; [done|].
  intros ->. by apply Qc_lt_irrefl in Hpos.
Qed.

Lemma default_factor_bounds {A B} (a : list A) (b : list B) :
  a ≠ [] → b ≠ [] →
  0 < 1 / (py_len a * py_len b) ∧ 1 / (py_len a * py_len b) ≤ 1.
Proof.
  intros Ha Hb. unfold Qcdiv. rewrite Qcmult_1_l. split.
  - apply Qcinv_pos, Qcmult_pos_pos; by apply py_len_pos.
  - apply Qcinv_le_1. rewrite <- py_len_mul, <- Z2Qc_inj_1.
    apply (proj1 (Z2Qc_inj_le _ _)).
    destruct a, b; try done. cbn [length]. lia.
Qed.

(** With the default normalization the normalized phi of an evaluated SIA
    lies between zero and its phi, whenever phi is not negative: the factor
    [1 / (|from_nodes| * |to_nodes|)] is positive and at most one. *)
Theorem default_normalized_phi_bounded {Subsystem tensor : Type}
    `{!SubsystemCapability Subsystem tensor} (config : Config)
    (partition : Partition) (subsystem : Subsystem)
    (system_state : SystemStateSpecification)
    (repertoire_distance : option string)
    (directions : option (list Direction))
    (s : SystemIrreducibilityAnalysis) :
  own_normalization_factor partition = None →
  evaluate_partition config partition subsystem system_state
    repertoire_distance directions = Ok s →
  0 ≤ sia_phi s →
  0 ≤ sia_normalized_phi s ∧ sia_normalized_phi s ≤ sia_phi s.
Proof.
  intros Hown. rewrite evaluate_partition_unfold.
  destruct (py_min _) as [phi|e]; [|done].
  destruct (normalization_factor partition) as [norm|e] eqn:Hnorm; [|done].
  intros [= <-]. simpl. intros Hphi.
  assert (from_nodes partition ≠ [] ∧ to_nodes partition ≠ [])
    as [Hfrom Hto].
  { split; intros Hnil;
      rewrite normalization_factor_empty_side in Hnorm by auto; done. }
  rewrite normalization_factor_default in Hnorm by done.
  injection Hnorm as <-.
  destruct (default_factor_bounds (from_nodes partition) (to_nodes partition)
              Hfrom Hto) as [Hpos Hle1].
  split.
  - rewrite <- (Qcmult_0_l (1 / (py_len (from_nodes partition)
                                  * py_len (to_nodes partition)))).
    apply Qcmult_le_mono_nonneg_r; [by apply Qclt_le_weak|done].
  - rewrite <- (Qcmult_1_r phi) at 2.
    by apply Qcmult_le_mono_nonneg_l.
Qed.

(** The cut [{0} → {1}] of the two-node system. *)
Lemma default_normalized_phi_bounded_witness :
  let partition := Toy.bipartition [0%nat] [1%nat] in
  let subsystem := Toy.system 1 1 in
  let system_state := system_intrinsic_information Toy.config subsystem None in
  ∃ s,
    evaluate_partition Toy.config partition subsystem system_state None None
    = Ok s ∧
    0 ≤ sia_normalized_phi s ∧ sia_normalized_phi s ≤ sia_phi s.
Proof.
  intros partition subsystem system_state.
  eexists. split; [reflexivity|].
  refine (default_normalized_phi_bounded Toy.config partition subsystem
            system_state None None _ eq_refl eq_refl _).
  discriminate.
Defined.

(** Reading [ties] sets the attribute: an object whose [_ties] was never
    set sees the list of itself alone, a second read returns the same list
    and leaves the store as it is, and from then on [to_json] succeeds. *)
Theorem ties_property_caches (store : gmap ref (list sia_obj))
    (self : sia_obj) :
  let first := get_ties store self in
  (store !! self.1 = None → first.1 = [self]) ∧
  get_ties first.2 self = first ∧
  to_json first.2 self = Ok self.2.
Proof.
  unfold get_ties, to_json, sia_obj in *.
  destruct (store !! self.1) as [ts|] eqn:Hs; simpl.
  - rewrite Hs. done.
  - rewrite lookup_insert_eq. done.
Qed.

(** ** Composition, once more *)

Lemma filter_filter_same {A} (P : A → Prop) `{!∀ x, Decision (P x)}
    (l : list A) :
  filter P (filter P l) = filter P l.
Proof.
  induction l as [|x l IH]; [done|].
  destruct (decide (P x)).
  - rewrite !filter_cons_True by done. by rewrite IH.
  - by rewrite filter_cons_False.
Qed.

(** Composing again from the parts of a composed structure gives the same
    structure: the congruence filter does not remove anything the second
    time. *)
Theorem phi_structure_idempotent
    {Subsystem tensor Distinction Relations : Type}
    `{!SubsystemCapability Subsystem tensor}
    `{!CompositionCapability Subsystem Distinction Relations}
    (config : Config) (subsystem : Subsystem)
    (sia : SystemIrreducibilityAnalysis) (distinctions : list Distinction)
    (relations : Relations) (p : PhiStructure Distinction Relations) :
  phi_structure config subsystem (Some sia) (Some distinctions)
    (Some relations) = Ok p →
  phi_structure config subsystem (Some (ps_sia p)) (Some (ps_distinctions p))
    (Some (ps_relations p)) = Ok p.
Proof.
  intros [= <-]. simpl. unfold phi_structure. simpl.
  unfold resolve_congruence. by rewrite filter_filter_same.
Qed.

(** The structure composed from one congruent and one incongruent
    distinction. *)
Lemma phi_structure_idempotent_witness :
  ∃ p,
    phi_structure Toy.config (Toy.system 1 1) (Some Toy.winning_sia)
      (Some [Toy.congruent_distinction; Toy.incongruent_distinction])
      (Some ([] : list Qc)) = Ok p ∧
    phi_structure Toy.config (Toy.system 1 1) (Some (ps_sia p))
      (Some (ps_distinctions p)) (Some (ps_relations p)) = Ok p.
Proof.
  eexists. split; [reflexivity|].
  exact (phi_structure_idempotent Toy.config (Toy.system 1 1)
           Toy.winning_sia
           [Toy.congruent_distinction; Toy.incongruent_distinction]
           ([] : list Qc) _ eq_refl).
Defined.

Lemma py_sum_from (a : Qc) (l : list Qc) : foldl Qcplus a l = a + py_sum l.
Proof.
  unfold py_sum. revert a. induction l as [|x l IH]; intros a; simpl.
  - by rewrite Qcplus_0_r.
  - rewrite (IH (a + x)), (IH (0 + x)), Qcplus_0_l. ring.
Qed.

Lemma py_sum_cons (x : Qc) (l : list Qc) : py_sum (x :: l) = x + py_sum l.
Proof. unfold py_sum at 1. simpl. by rewrite py_sum_from, Qcplus_0_l. Qed.

Lemma py_sum_filter_le {A} (f : A → Qc) (P : A → Prop)
    `{!∀ x, Decision (P x)} (l : list A) :
  (∀ x, x ∈ l → 0 ≤ f x) →
  py_sum (f <$> filter P l) ≤ py_sum (f <$> l).
Proof.
  induction l as [|x l IH]; intros Hpos; [apply Qcle_refl|].
  assert (py_sum (f <$> filter P l) ≤ py_sum (f <$> l)) as Hle.
  { apply IH. intros y Hy. apply Hpos. by right. }
  rewrite fmap_cons, py_sum_cons.
  destruct (decide (P x)).
  - rewrite filter_cons_True by done. rewrite fmap_cons, py_sum_cons.
    by apply Qcplus_le_mono_l.
  - rewrite filter_cons_False by done.
    eapply Qcle_trans; [exact Hle|].
    rewrite <- (Qcplus_0_l (py_sum (f <$> l))) at 1.
    apply Qcplus_le_mono_r. apply Hpos. left.
Qed.

(** When no supplied distinction has a negative phi, the [big_phi] of the
    composed structure is at most the sum over all the supplied
    distinctions plus the relations' [sum_phi()]: filtering can only lower
    it. *)
Theorem big_phi_at_most_supplied
    {Subsystem tensor Distinction Relations : Type}
    `{!SubsystemCapability Subsystem tensor}
    `{!CompositionCapability Subsystem Distinction Relations}
    (config : Config) (subsystem : Subsystem)
    (sia : SystemIrreducibilityAnalysis) (distinctions : list Distinction)
    (relations : Relations) (p : PhiStructure Distinction Relations) :
  (∀ d, d ∈ distinctions → 0 ≤ distinction_phi d) →
  phi_structure config subsystem (Some sia) (Some distinctions)
    (Some relations) = Ok p →
  big_phi p
  ≤ py_sum (distinction_phi <$> distinctions) + relations_sum_phi relations.
Proof.
  intros Hpos [= <-].
  unfold big_phi, sum_phi_distinctions, sum_phi_relations, phis. simpl.
  apply Qcplus_le_mono_r. unfold resolve_congruence.
  by apply py_sum_filter_le.
Qed.

(** The distinctions of phi [1] and [2], the second incongruent. *)
Lemma big_phi_at_most_supplied_witness :
  let distinctions :=
    [Toy.congruent_distinction; Toy.incongruent_distinction] in
  ∃ p,
    phi_structure Toy.config (Toy.system 1 1) (Some Toy.winning_sia)
      (Some distinctions) (Some ([] : list Qc)) = Ok p ∧
    big_phi p
    ≤ py_sum (distinction_phi <$> distinctions)
      + relations_sum_phi ([] : list Qc).
Proof.
  intros distinctions.
  eexists. split; [reflexivity|].
  refine (big_phi_at_most_supplied Toy.config (Toy.system 1 1)
            Toy.winning_sia distinctions ([] : list Qc) _ _ eq_refl).
  intros d Hd.
  apply elem_of_cons in Hd as [->|Hd]; [discriminate|].
  apply elem_of_cons in Hd as [->|Hd]; [discriminate|].
  by apply elem_of_nil in Hd.
Defined.

(** The truthiness and the ordering key of a composed structure are those
    of its SIA, whatever distinctions and relations it holds: [order_by]
    reads [phi], which the structure inherits from the SIA.  The null
    structure is falsy, with key [0]. *)
Theorem phi_structure_truthiness_and_order
    {Subsystem tensor Distinction Relations : Type}
    `{!SubsystemCapability Subsystem tensor}
    `{!CompositionCapability Subsystem Distinction Relations}
    (config : Config) (subsystem : Subsystem)
    (sia : SystemIrreducibilityAnalysis)
    (distinctions : option (list Distinction))
    (relations : option Relations) (no_relations : Relations) :
  (∃ p,
     phi_structure config subsystem (Some sia) distinctions relations = Ok p ∧
     ps_bool p = sia_bool sia ∧
     ps_order_by p = sia_phi sia ∧
     (ps_bool p = true ↔ 0 < ps_order_by p)) ∧
  ps_bool (NullPhiStructure (Distinction := Distinction) no_relations) = false ∧
  ps_order_by (NullPhiStructure (Distinction := Distinction) no_relations) = 0.
Proof.
  split; [|done].
  eexists. split; [reflexivity|]. split_and!; try done.
  unfold ps_bool, ps_order_by, ps_phi, sia_bool, is_positive. simpl.
  apply bool_decide_eq_true.
Qed.

(** ** Complexes *)

Lemma yield_each_elem {A B} (f : A → result B) (xs : list A) y :
  y ∈ yielded (yield_each f xs) → ∃ x, x ∈ xs ∧ f x = Ok y.
Proof.
  induction xs as [|x xs IH]; simpl.
  - by intros ?%elem_of_nil.
  - destruct (f x) as [y'|e] eqn:Hfx; simpl.
    + intros [->|Hy]%elem_of_cons.
      * exists x. split; [left|done].
      * destruct (IH Hy) as (x' & Hx' & Hf). exists x'. split; [by right|done].
    + by intros ?%elem_of_nil.
Qed.

Lemma MapReduce_run_elem {A B} (fn : A → result B) shortcircuit_func
    (inputs : list A) ys y :
  (MapReduce_run fn shortcircuit_func inputs).1 = Ok ys →
  y ∈ ys → ∃ x, x ∈ inputs ∧ fn x = Ok y.
Proof.
  revert ys. induction inputs as [|x inputs IH]; intros ys; simpl.
  - intros [= <-] ?%elem_of_nil. done.
  - destruct (fn x) as [y'|e] eqn:Hfx; simpl; [|done].
    destruct (shortcircuit_func y').
    + simpl. intros [= <-] ->%list_elem_of_singleton.
      exists x. split; [left|done].
    + destruct (MapReduce_run fn shortcircuit_func inputs) as [[ys'|e] log];
        simpl in *; [|done].
      intros [= <-] [->|Hy]%elem_of_cons.
      * exists x. split; [left|done].
      * destruct (IH ys' eq_refl Hy) as (x' & Hx' & Hf).
        exists x'. split; [by right|done].
Qed.

(** An SIA of positive phi that [sia] returns was evaluated on one of the
    candidate partitions: it is not a null SIA. *)
Lemma sia_positive_has_partition {Subsystem tensor : Type}
    `{!SubsystemCapability Subsystem tensor} (config : Config)
    (subsystem : Subsystem) repertoire_distance directions partition_scheme
    partitions (s : sia_obj) :
  returned (sia config subsystem repertoire_distance directions
              partition_scheme partitions) = Ok s →
  0 < sia_phi s.2 →
  ∃ partition, sia_partition s.2 = Some partition ∧ sia_reasons s.2 = None.
Proof.
  rewrite sia_unfold. case_bool_decide as Hreasons.
  - simpl. intros [= <-]. simpl. by intros ?%Qc_lt_irrefl.
  - destruct (MapReduce_run _ _ _).1 as [sias|e] eqn:Hexec; simpl; [|done].
    intros [= <-] Hpos.
    destruct (find_mip_winner_origin (EPSILON config)
                (0%nat,
                 NullSystemIrreducibilityAnalysis
                   (Some (system_intrinsic_information config subsystem None))
                   (Some (node_indices subsystem))
                   (Some (node_labels subsystem))
                   (Some [NO_VALID_PARTITIONS]))
                (imap (λ i s, (S i, s)) sias)) as [Heq|Hin].
    + rewrite Heq in Hpos. simpl in Hpos. by apply Qc_lt_irrefl in Hpos.
    + apply elem_of_lookup_imap in Hin as (i & y & -> & Hy). simpl.
      apply list_elem_of_lookup_2 in Hy.
      destruct (MapReduce_run_elem _ _ _ _ _ Hexec Hy) as (p & _ & Heval).
      rewrite evaluate_partition_unfold in Heval.
      destruct (py_min _); [|done].
      destruct (normalization_factor p); [|done].
      injection Heval as <-. by exists p.
Qed.

(** [irreducible_complexes] yields, in the same order, exactly the SIAs of
    [all_complexes] whose phi is positive, and ends with the same exception
    if any.  None of them is a null SIA: each one carries the partition it
    was evaluated on, so a subsystem without cause or effect information, or
    without candidate partitions, never yields an irreducible complex. *)
Theorem irreducible_complexes_are_positive {Subsystem tensor : Type}
    `{!SubsystemCapability Subsystem tensor} {Network State : Type}
    (config : Config) (network_node_indices : Network → list nat)
    (reachable_subsystems : Network → list nat → State → list Subsystem)
    (network : Network) (state : State)
    (repertoire_distance : option string)
    (directions : option (list Direction)) (partition_scheme : option string)
    (partitions : option (list Partition)) :
  let all :=
    all_complexes config network_node_indices reachable_subsystems network
      state repertoire_distance directions partition_scheme partitions in
  let irreducible :=
    irreducible_complexes config network_node_indices reachable_subsystems
      network state repertoire_distance directions partition_scheme
      partitions in
  yielded irreducible = filter (λ s, 0 < sia_phi s.2) (yielded all) ∧
  raised irreducible = raised all ∧
  (∀ s, s ∈ yielded irreducible →
     ∃ partition, sia_partition s.2 = Some partition ∧
                  sia_reasons s.2 = None).
Proof.
  intros all irreducible. subst irreducible.
  unfold irreducible_complexes, filter_truthy. simpl. fold all.
  assert (filter (λ x : sia_obj, sia_bool x.2 = true) (yielded all)
          = filter (λ s : sia_obj, 0 < sia_phi s.2) (yielded all)) as Hsame.
  { apply list_filter_iff. intros s. unfold sia_bool, is_positive.
    apply bool_decide_eq_true. }
  split_and!; [done|done|].
  intros s [Hpos Hs]%list_elem_of_filter.
  apply bool_decide_eq_true in Hpos.
  apply yield_each_elem in Hs as (subsystem & _ & Hret).
  by eapply sia_positive_has_partition.
Qed.

Lemma max_fold_elem {A} (gt : A → A → bool) (l : list A) (x : A) :
  foldl (λ m y, if gt y m then y else m) x l ∈ x :: l.
Proof.
  revert x. induction l as [|y l IH]; intros x; simpl; [left|].
  destruct (gt y x).
  - right. apply IH.
  - specialize (IH x). apply elem_of_cons in IH as [->|IH]; [left|].
    right. by right.
Qed.

(** [maximal_complex] returns the null [PhiStructure] exactly when the
    iteration ends without an irreducible complex; otherwise it returns one
    of the irreducible complexes, an SIA of positive phi, whatever the order
    on SIAs is; an exception of the iteration is passed on. *)
Theorem maximal_complex_cases {Subsystem tensor : Type}
    `{!SubsystemCapability Subsystem tensor}
    {Network State Distinction Relations : Type}
    (config : Config) (network_node_indices : Network → list nat)
    (reachable_subsystems : Network → list nat → State → list Subsystem)
    (sia_gt : sia_obj → sia_obj → bool) (no_relations : Relations)
    (network : Network) (state : State)
    (repertoire_distance : option string)
    (directions : option (list Direction)) (partition_scheme : option string)
    (partitions : option (list Partition)) :
  let irreducible :=
    irreducible_complexes config network_node_indices reachable_subsystems
      network state repertoire_distance directions partition_scheme
      partitions in
  match
    maximal_complex (Distinction := Distinction) config network_node_indices
      reachable_subsystems sia_gt no_relations network state
      repertoire_distance directions partition_scheme partitions
  with
  | Ok (inr p) =>
      yielded irreducible = [] ∧ raised irreducible = None ∧
      p = NullPhiStructure no_relations
  | Ok (inl s) =>
      s ∈ yielded irreducible ∧ raised irreducible = None ∧ 0 < sia_phi s.2
  | Err e => raised irreducible = Some e
  end.
Proof.
  intros irreducible. unfold maximal_complex, py_max_default.
  fold irreducible.
  destruct (raised irreducible) as [e|] eqn:Hraised; [done|].
  destruct (yielded irreducible) as [|x rest] eqn:Hyielded; [done|].
  pose proof (max_fold_elem sia_gt rest x) as Hin.
  split_and!; [done|done|].
  rewrite <- Hyielded in Hin. subst irreducible.
  unfold irreducible_complexes, filter_truthy in Hin. simpl in Hin.
  apply list_elem_of_filter in Hin as [Hpos _].
  by apply bool_decide_eq_true in Hpos.
Qed.

(** ** Tie resolution, once more *)

Lemma score_tuple_with_none (names : list string) (obj : PhiObject) :
  "NONE" ∈ names → ∃ e, outcome (score_tuple names obj) = Err e.
Proof.
  induction names as [|s names IH]; [by intros ?%elem_of_nil|].
  intros Hin. simpl. rewrite outcome_bind.
  destruct (outcome (invoke_strategy s obj)) as [x|e] eqn:Hs; [|by exists e].
  apply elem_of_cons in Hin as [<-|Hin]; [done|].
  rewrite outcome_bind. destruct (IH Hin) as [e ->]. by exists e.
Qed.

(** Only the bare string ["NONE"] is special-cased.  In a list of
    strategies the name selects the registered function, which raises: with
    ["NONE"] anywhere in the list, [resolve] fails as soon as there is an
    object, or a default, to score; for the list [["NONE"]] the error is
    [NotImplementedError]. *)
Theorem resolve_list_with_none_raises (objects : list PhiObject)
    (names : list string)
    (operation : list (list Qc * PhiObject) → option (list Qc * PhiObject) →
                 list (list Qc * PhiObject))
    (default : option PhiObject) :
  "NONE" ∈ names →
  objects ≠ [] ∨ default ≠ None →
  (∃ e, outcome (resolve objects (StrategyList names) operation default)
        = Err e) ∧
  (names = ["NONE"] →
   outcome (resolve objects (StrategyList names) operation default)
   = Err NotImplementedError).
Proof.
  intros Hnone Hscored.
  assert (∀ e0, (∀ obj, outcome (score_tuple names obj) = Err e0) →
                outcome (resolve objects (StrategyList names) operation default)
                = Err e0) as Hsame.
  { intros e0 He0. unfold resolve. rewrite bool_decide_eq_false_2 by done.
    change (_strategies_to_key_function (StrategyList names))
      with (score_tuple names).
    rewrite outcome_bind.
    destruct default as [d|].
    - by rewrite outcome_bind, He0.
    - simpl. rewrite outcome_bind.
      destruct objects as [|obj objects]; [by destruct Hscored|].
      simpl. by rewrite outcome_bind, He0. }
  split.
  - unfold resolve. rewrite bool_decide_eq_false_2 by done.
    change (_strategies_to_key_function (StrategyList names))
      with (score_tuple names).
    rewrite outcome_bind.
    destruct default as [d|].
    + rewrite outcome_bind.
      destruct (score_tuple_with_none names d Hnone) as [e ->]. by exists e.
    + simpl. rewrite outcome_bind.
      destruct objects as [|obj objects]; [by destruct Hscored|].
      simpl. rewrite outcome_bind.
      destruct (score_tuple_with_none names obj Hnone) as [e ->]. by exists e.
  - intros ->. apply Hsame. intros obj. reflexivity.
Qed.

(** The candidates [A] and [B] under the list [["PHI", "NONE"]]. *)
Lemma resolve_list_with_none_raises_witness :
  (∃ e, outcome (resolve [Toy.A; Toy.B] (StrategyList ["PHI"; "NONE"])
                   all_maxima None) = Err e) ∧
  (["PHI"; "NONE"] = ["NONE"] →
   outcome (resolve [Toy.A; Toy.B] (StrategyList ["PHI"; "NONE"])
              all_maxima None) = Err NotImplementedError).
Proof.
  refine (resolve_list_with_none_raises [Toy.A; Toy.B] ["PHI"; "NONE"]
            all_maxima None _ _).
  - apply elem_of_cons. right. apply elem_of_cons. left. reflexivity.
  - left. discriminate.
Defined.

(** ** Utilities *)

(** [phi_eq] is symmetric and, for a tolerance that is not negative,
    reflexive, but for a positive tolerance it is not transitive: [0] and
    [EPSILON] compare equal, [EPSILON] and [2 * EPSILON] do, [0] and
    [2 * EPSILON] do not. *)
Theorem phi_eq_symmetric_not_transitive (EPSILON : Qc) :
  (∀ x y, phi_eq EPSILON x y = phi_eq EPSILON y x) ∧
  (0 ≤ EPSILON → ∀ x, phi_eq EPSILON x x = true) ∧
  (0 < EPSILON →
   phi_eq EPSILON 0 EPSILON = true ∧
   phi_eq EPSILON EPSILON (EPSILON + EPSILON) = true ∧
   phi_eq EPSILON 0 (EPSILON + EPSILON) = false).
Proof.
  split_and!.
  - intros x y. unfold phi_eq.
    replace (y - x) with (- (x - y)) by ring. by rewrite py_abs_opp.
  - intros Heps x. unfold phi_eq.
    replace (x - x) with 0 by ring.
    by apply bool_decide_eq_true.
  - intros Heps.
    assert (py_abs (- EPSILON) = EPSILON) as Habs.
    { rewrite py_abs_opp. unfold py_abs. rewrite bool_decide_eq_false_2; [done|].
      intros Hlt. apply (Qclt_not_le _ _ Hlt). by apply Qclt_le_weak. }
    assert (py_abs (- (EPSILON + EPSILON)) = EPSILON + EPSILON) as Habs2.
    { rewrite py_abs_opp. unfold py_abs. rewrite bool_decide_eq_false_2; [done|].
      intros Hlt. apply (Qclt_not_le _ _ Hlt). apply Qclt_le_weak.
      rewrite <- (Qcplus_0_l 0).
      eapply Qclt_trans; [apply Qcplus_lt_mono_l, Heps|].
      by apply Qcplus_lt_mono_r. }
    unfold phi_eq. split_and!.
    + replace (0 - EPSILON) with (- EPSILON) by ring.
      rewrite Habs. apply bool_decide_eq_true, Qcle_refl.
    + replace (EPSILON - (EPSILON + EPSILON)) with (- EPSILON) by ring.
      rewrite Habs. apply bool_decide_eq_true, Qcle_refl.
    + replace (0 - (EPSILON + EPSILON)) with (- (EPSILON + EPSILON)) by ring.
      rewrite Habs2. apply bool_decide_eq_false.
      apply Qclt_not_le.
      rewrite <- (Qcplus_0_l EPSILON) at 1. by apply Qcplus_lt_mono_r.
Qed.

Lemma py_index_is_Some {A} (l : list A) (i : Z) :
  is_Some (py_index l i) ↔
  (- Z.of_nat (length l) ≤ i < Z.of_nat (length l))%Z.
Proof.
  unfold py_index. repeat case_bool_decide.
  - rewrite lookup_lt_is_Some. lia.
  - rewrite lookup_lt_is_Some. lia.
  - split; [by intros [? ?]|lia].
Qed.

Lemma py_index_of_nat {A} (l : list A) (i : nat) x :
  l !! i = Some x → py_index l (Z.of_nat i) = Some x.
Proof.
  intros Hi. pose proof (lookup_lt_Some _ _ _ Hi) as Hlt.
  unfold py_index. rewrite bool_decide_eq_true_2 by lia.
  by rewrite Nat2Z.id.
Qed.

Lemma state_of_mapM {A} (nodes : list Z) (network_state : list A) :
  state_of nodes network_state = mapM (py_index network_state) nodes.
Proof. by destruct nodes. Qed.

Lemma py_take_range {A} (a : list A) :
  py_take a (py_range (Z.of_nat (length a))) = Some a.
Proof.
  unfold py_take, py_range. apply mapM_Some.
  apply Forall2_same_length_lookup_2.
  - by rewrite length_seqZ, Nat2Z.id.
  - intros i x y [-> _]%lookup_seqZ Hy. rewrite Z.add_0_l.
    by apply py_index_of_nat.
Qed.

(** [state_of] returns one state per node, fails exactly when some node
    index is outside the network state (negative indices count from the
    end), and reads the whole state back when asked for all its indices in
    order. *)
Theorem state_of_spec {A} (nodes : list Z) (network_state : list A) :
  (∀ states, state_of nodes network_state = Some states →
     length states = length nodes) ∧
  (is_Some (state_of nodes network_state) ↔
   ∀ n, n ∈ nodes →
        (- Z.of_nat (length network_state) ≤ n
         < Z.of_nat (length network_state))%Z) ∧
  state_of (py_range (Z.of_nat (length network_state))) network_state
  = Some network_state.
Proof.
  rewrite !state_of_mapM. split_and!.
  - intros states Hs. symmetry. by eapply length_mapM.
  - rewrite mapM_is_Some, list.Forall_forall.
    split; intros Hall n Hn.
    + apply py_index_is_Some. exact (Hall n Hn).
    + unfold compose. apply py_index_is_Some. by apply Hall.
  - apply py_take_range.
Qed.

(** *** Bipartitions *)

Lemma bit_of_shift (i n : Z) :
  (0 ≤ n)%Z → Z.land (Z.shiftr i n) 1 = Z.b2z (Z.testbit i n).
Proof.
  intros Hn. change 1%Z with (Z.ones 1).
  rewrite Z.land_ones by lia. rewrite Z.shiftr_div_pow2 by done.
  by rewrite Z.testbit_spec'.
Qed.

Lemma bit_zero_iff (i n : Z) :
  (0 ≤ n)%Z → Z.land (Z.shiftr i n) 1 = 0%Z ↔ Z.testbit i n = false.
Proof. intros Hn. rewrite bit_of_shift by done. by destruct (Z.testbit i n). Qed.

Lemma bipartition_fold (i : Z) (l a b : list Z) :
  foldl
    (λ part n,
       let bit := Z.land (Z.shiftr i n) 1 in
       if bool_decide (bit = 0%Z) then (part.1 ++ [n], part.2)
       else (part.1, part.2 ++ [n]))
    (a, b) l
  = (a ++ filter (λ n, Z.land (Z.shiftr i n) 1 = 0%Z) l,
     b ++ filter (λ n, ¬ Z.land (Z.shiftr i n) 1 = 0%Z) l).
Proof.
  revert a b. induction l as [|n l IH]; intros a b; simpl.
  - by rewrite !app_nil_r.
  - case_bool_decide as Hbit; simpl; rewrite IH.
    + rewrite filter_cons_True, filter_cons_False by tauto.
      by rewrite <- app_assoc.
    + rewrite filter_cons_False, filter_cons_True by tauto.
      by rewrite <- app_assoc.
Qed.

Lemma bipartition_part_spec (N i : Z) :
  bipartition_part N i
  = (filter (λ n, Z.land (Z.shiftr i n) 1 = 0%Z) (py_range N),
     filter (λ n, ¬ Z.land (Z.shiftr i n) 1 = 0%Z) (py_range N)).
Proof. unfold bipartition_part. by rewrite bipartition_fold. Qed.

Lemma bipartition_indices_elem (N : Z) (idx : list Z * list Z) :
  idx ∈ bipartition_indices N ↔
  (0 < N)%Z ∧
  ∃ i, (0 ≤ i < 2 ^ (N - 1))%Z ∧
       idx = (filter (λ n, ¬ Z.land (Z.shiftr i n) 1 = 0%Z) (py_range N),
              filter (λ n, Z.land (Z.shiftr i n) 1 = 0%Z) (py_range N)).
Proof.
  unfold bipartition_indices. case_bool_decide as HN.
  - split; [by intros ?%elem_of_nil|]. intros [? _]. lia.
  - rewrite list_elem_of_fmap. unfold py_range. split.
    + intros (i & -> & Hi). apply elem_of_seqZ in Hi.
      split; [lia|]. exists i. split; [lia|].
      by rewrite bipartition_part_spec.
    + intros (_ & i & Hi & ->). exists i. split.
      * by rewrite bipartition_part_spec.
      * apply elem_of_seqZ. lia.
Qed.

Lemma high_bit_clear (i n m : Z) :
  (0 ≤ i < 2 ^ n)%Z → (0 ≤ n ≤ m)%Z → Z.testbit i m = false.
Proof.
  intros Hi Hn. rewrite <- (Z.mod_small i (2 ^ n)) by done.
  by apply Z.mod_pow2_bits_high.
Qed.

Lemma bipartition_row_inj (N i j : Z) :
  (0 < N)%Z → (0 ≤ i < 2 ^ (N - 1))%Z → (0 ≤ j < 2 ^ (N - 1))%Z →
  filter (λ n, Z.land (Z.shiftr i n) 1 = 0%Z) (py_range N)
  = filter (λ n, Z.land (Z.shiftr j n) 1 = 0%Z) (py_range N) →
  i = j.
Proof.
  intros HN Hi Hj Heq. apply Z.bits_inj'. intros n Hn.
  destruct (decide (n < N - 1)%Z) as [Hlt|Hge].
  - assert (n ∈ py_range N) as Hin by (apply elem_of_seqZ; lia).
    assert (Z.land (Z.shiftr i n) 1 = 0%Z ↔ Z.land (Z.shiftr j n) 1 = 0%Z)
      as Hiff.
    { split; intros Hb.
      - assert (n ∈ filter (λ n, Z.land (Z.shiftr i n) 1 = 0%Z) (py_range N))
          as Hf by by apply list_elem_of_filter.
        rewrite Heq in Hf. by apply list_elem_of_filter in Hf as [? _].
      - assert (n ∈ filter (λ n, Z.land (Z.shiftr j n) 1 = 0%Z) (py_range N))
          as Hf by by apply list_elem_of_filter.
        rewrite <- Heq in Hf. by apply list_elem_of_filter in Hf as [? _]. }
    rewrite !bit_zero_iff in Hiff by done.
    destruct (Z.testbit i n), (Z.testbit j n); try done.
    + by destruct (proj2 Hiff eq_refl).
    + by destruct (proj1 Hiff eq_refl).
  - rewrite (high_bit_clear i (N - 1) n), (high_bit_clear j (N - 1) n)
      by lia. done.
Qed.

Lemma bipartition_indices_length (N : Z) :
  (0 < N)%Z → length (bipartition_indices N) = Z.to_nat (2 ^ (N - 1)).
Proof.
  intros HN. unfold bipartition_indices.
  rewrite bool_decide_eq_false_2 by lia. unfold py_range.
  by rewrite length_fmap, length_seqZ.
Qed.

Lemma bipartition_indices_NoDup (N : Z) : NoDup (bipartition_indices N).
Proof.
  unfold bipartition_indices. case_bool_decide as HN; [constructor|].
  unfold py_range. apply NoDup_fmap_2_strong; [|apply NoDup_seqZ].
  intros i j Hi Hj. rewrite !bipartition_part_spec. simpl.
  intros [= _ Heq].
  apply elem_of_seqZ in Hi. apply elem_of_seqZ in Hj.
  apply (bipartition_row_inj N); [lia|lia|lia|done].
Qed.

Lemma bipartition_indices_parts (N : Z) (idx : list Z * list Z) :
  idx ∈ bipartition_indices N →
  idx.1 ++ idx.2 ≡ₚ py_range N ∧ (N - 1)%Z ∈ idx.2.
Proof.
  intros (HN & i & Hi & ->)%bipartition_indices_elem. simpl. split.
  - rewrite (comm (++)). apply filter_app_complement.
  - apply list_elem_of_filter. split.
    + apply bit_zero_iff; [lia|]. apply (high_bit_clear i (N - 1)); lia.
    + apply elem_of_seqZ. lia.
Qed.

(** [bipartition_indices(N)] is empty for [N ≤ 0] and otherwise lists
    [2 ** (N - 1)] pairs, no pair twice.  The two parts of a pair, put
    together, are a rearrangement of [range(N)], and the last index [N - 1]
    is always in the second part, so that no entry is the mirror image of
    another. *)
Theorem bipartition_indices_spec (N : Z) :
  ((N ≤ 0)%Z → bipartition_indices N = []) ∧
  ((0 < N)%Z →
   length (bipartition_indices N) = Z.to_nat (2 ^ (N - 1))) ∧
  NoDup (bipartition_indices N) ∧
  (∀ idx, idx ∈ bipartition_indices N →
     idx.1 ++ idx.2 ≡ₚ py_range N ∧ (N - 1)%Z ∈ idx.2).
Proof.
  split_and!.
  - intros HN. unfold bipartition_indices. by rewrite bool_decide_eq_true_2.
  - apply bipartition_indices_length.
  - apply bipartition_indices_NoDup.
  - apply bipartition_indices_parts.
Qed.

Lemma swap_parts_involutive {A} (idx : A * A) :
  swap_parts (swap_parts idx) = idx.
Proof. by destruct idx. Qed.

Lemma swap_parts_inj {A} (x y : A * A) :
  swap_parts x = swap_parts y → x = y.
Proof. destruct x, y. by intros [= -> ->]. Qed.

Lemma range_NoDup (N : Z) : NoDup (py_range N).
Proof. apply NoDup_seqZ. Qed.

Lemma mirrored_list {A} (half : list (A * A)) :
  swap_parts <$> reverse (half ++ (swap_parts <$> reverse half))
  = half ++ (swap_parts <$> reverse half).
Proof.
  rewrite reverse_app, fmap_app. f_equal.
  rewrite <- (fmap_reverse swap_parts (reverse _)), reverse_involutive.
  rewrite <- list_fmap_compose.
  rewrite <- (list_fmap_id half) at 2.
  apply list_fmap_ext. intros ? idx ?. apply swap_parts_involutive.
Qed.

(** [directed_bipartition_indices(N)] lists, for [N > 0], [2 ** N] pairs
    and no pair twice: the undirected bipartitions followed by their mirror
    images in reverse order, so the list read backwards with every pair
    swapped is the list itself.  The two parts of each pair together are a
    rearrangement of [range(N)]. *)
Theorem directed_bipartition_indices_spec (N : Z) :
  ((0 < N)%Z →
   length (directed_bipartition_indices N) = Z.to_nat (2 ^ N)) ∧
  swap_parts <$> reverse (directed_bipartition_indices N)
  = directed_bipartition_indices N ∧
  NoDup (directed_bipartition_indices N) ∧
  (∀ idx, idx ∈ directed_bipartition_indices N ↔
          idx ∈ bipartition_indices N ∨ swap_parts idx ∈ bipartition_indices N) ∧
  (∀ idx, idx ∈ directed_bipartition_indices N →
          idx.1 ++ idx.2 ≡ₚ py_range N).
Proof.
  pose proof (bipartition_indices_length N) as Hlen.
  pose proof (bipartition_indices_NoDup N) as Hnd.
  pose proof (bipartition_indices_parts N) as Hparts.
  assert (∀ idx, idx ∈ directed_bipartition_indices N ↔
            idx ∈ bipartition_indices N ∨
            swap_parts idx ∈ bipartition_indices N) as Helem.
  { intros idx. unfold directed_bipartition_indices.
    rewrite elem_of_app, list_elem_of_fmap. split.
    - intros [?|(y & -> & Hy)]; [by left|right].
      rewrite swap_parts_involutive. by apply elem_of_reverse.
    - intros [?|Hsw]; [by left|right].
      exists (swap_parts idx). rewrite swap_parts_involutive.
      split; [done|]. by apply elem_of_reverse. }
  split_and!.
  - intros HN. unfold directed_bipartition_indices.
    rewrite length_app, length_fmap, length_reverse, Hlen by done.
    replace N with (Z.succ (N - 1)) at 3 by lia.
    rewrite Z.pow_succ_r by lia. lia.
  - apply mirrored_list.
  - unfold directed_bipartition_indices. apply list.NoDup_app. split_and!.
    + done.
    + intros idx Hidx (y & -> & Hy)%list_elem_of_fmap.
      rewrite elem_of_reverse in Hy.
      destruct (Hparts _ Hidx) as [_ Hlast].
      destruct (Hparts _ Hy) as [Hperm Hlast'].
      assert (NoDup (y.1 ++ y.2)) as Hnd'
        by (rewrite Hperm; apply range_NoDup).
      apply list.NoDup_app in Hnd' as (_ & Hdisj & _).
      by apply (Hdisj (N - 1)%Z).
    + apply NoDup_fmap_2_strong; [|by rewrite reverse_Permutation].
      intros x y _ _. apply swap_parts_inj.
  - done.
  - intros idx [Hidx|Hidx]%Helem.
    + by apply Hparts.
    + destruct (Hparts _ Hidx) as [Hperm _]. rewrite <- Hperm.
      destruct idx; simpl. apply (comm (++)).
Qed.

Lemma mapM_perm {A B} (f : A → option B) (l l' : list A) (k : list B) :
  l ≡ₚ l' → mapM f l = Some k → ∃ k', mapM f l' = Some k' ∧ k ≡ₚ k'.
Proof.
  intros Hperm. revert k.
  induction Hperm as [|x l l' _ IH|x y l|l l' l'' _ IH1 _ IH2]; intros k.
  - intros [= <-]. by exists [].
  - cbn. destruct (f x) as [z|]; [|done]. cbn.
    destruct (mapM f l) as [k0|] eqn:Hk0; [|done]. cbn. intros [= <-].
    destruct (IH k0 eq_refl) as (k' & -> & Hk'). cbn.
    exists (z :: k'). split; [done|]. by constructor.
  - cbn. destruct (f y) as [zy|]; cbn.
    + destruct (f x) as [zx|]; cbn; [|done].
      destruct (mapM f l) as [k0|]; cbn; [|done]. intros [= <-].
      exists (zx :: zy :: k0). split; [done|]. apply perm_swap.
    + by destruct (f x).
  - intros Hk. destruct (IH1 k Hk) as (k' & Hk' & Hp1).
    destruct (IH2 k' Hk') as (k'' & Hk'' & Hp2).
    exists k''. split; [done|]. by etrans.
Qed.

Lemma mapM_app_eq {A B} (f : A → option B) (l1 l2 : list A) :
  mapM f (l1 ++ l2)
  = k1 ← mapM f l1; k2 ← mapM f l2; Some (k1 ++ k2).
Proof.
  induction l1 as [|x l1 IH]; cbn.
  - by destruct (mapM f l2).
  - destruct (f x) as [y|]; cbn; [|done]. rewrite IH.
    destruct (mapM f l1) as [k1|]; cbn; [|done].
    by destruct (mapM f l2).
Qed.

Lemma mapM_reverse {A B} (f : A → option B) (l : list A) :
  mapM f (reverse l) = reverse <$> mapM f l.
Proof.
  induction l as [|x l IH]; [done|].
  rewrite reverse_cons, mapM_app_eq, IH. cbn -[reverse].
  destruct (mapM f l) as [k|]; cbn -[reverse].
  - destruct (f x) as [y|]; cbn -[reverse]; [|done]. by rewrite reverse_cons.
  - by destruct (f x).
Qed.

Lemma mapM_fmap_comm {A B} (f : A → option B) (h : A → A) (h' : B → B)
    (l : list A) :
  (∀ x, f (h x) = h' <$> f x) →
  mapM f (h <$> l) = fmap h' <$> mapM f l.
Proof.
  intros Hcomm. induction l as [|x l IH]; [done|].
  cbn. rewrite Hcomm, IH.
  destruct (f x) as [y|]; cbn; [|done].
  by destruct (mapM f l).
Qed.

Lemma take_parts_spec {A} (a : list A) (idx : list Z * list Z) :
  idx.1 ++ idx.2 ≡ₚ py_range (Z.of_nat (length a)) →
  ∃ p,
    (p0 ← py_take a idx.1; p1 ← py_take a idx.2; Some (p0, p1)) = Some p ∧
    p.1 ++ p.2 ≡ₚ a ∧
    length p.1 = length idx.1 ∧ length p.2 = length idx.2.
Proof.
  intros Hperm. symmetry in Hperm.
  destruct (mapM_perm _ _ _ _ Hperm (py_take_range a)) as (k & Hk & Hak).
  rewrite mapM_app_eq in Hk. unfold py_take.
  destruct (mapM (py_index a) idx.1) as [p0|] eqn:H0; [|done].
  destruct (mapM (py_index a) idx.2) as [p1|] eqn:H1; [|done].
  cbn in Hk. injection Hk as <-. exists (p0, p1). cbn.
  split_and!; [done|done| |]; symmetry; by eapply length_mapM.
Qed.

Lemma bipartition_unfold {A} (a : list A) :
  bipartition a
  = mapM (λ idx, p0 ← py_take a idx.1; p1 ← py_take a idx.2; Some (p0, p1))
      (bipartition_indices (Z.of_nat (length a))).
Proof. unfold bipartition. apply mapM_ext. by intros [??]. Qed.

Lemma directed_bipartition_unfold {A} (a : list A) :
  directed_bipartition a
  = mapM (λ idx, p0 ← py_take a idx.1; p1 ← py_take a idx.2; Some (p0, p1))
      (directed_bipartition_indices (Z.of_nat (length a))).
Proof. unfold directed_bipartition. apply mapM_ext. by intros [??]. Qed.

Lemma bipartition_parts {A} (a : list A) :
  ∃ parts,
    bipartition a = Some parts ∧
    length parts = length (bipartition_indices (Z.of_nat (length a))) ∧
    ∀ p, p ∈ parts → p.1 ++ p.2 ≡ₚ a.
Proof.
  pose proof (bipartition_indices_parts (Z.of_nat (length a))) as Hparts.
  rewrite bipartition_unfold.
  set (g := λ idx : list Z * list Z,
              p0 ← py_take a idx.1; p1 ← py_take a idx.2; Some (p0, p1)).
  assert (is_Some (mapM g (bipartition_indices (Z.of_nat (length a)))))
    as [parts Hmap].
  { apply mapM_is_Some, list.Forall_forall. intros idx Hidx.
    destruct (take_parts_spec a idx) as (p & Hp & _).
    - by apply Hparts.
    - unfold compose. by exists p. }
  exists parts. split; [done|].
  pose proof (length_mapM _ _ _ Hmap) as Hsame.
  apply mapM_Some in Hmap. split; [done|].
  intros p [i Hi]%list_elem_of_lookup.
  destruct (Forall2_lookup_r _ _ _ _ _ Hmap Hi) as (idx & Hidx & Hg).
  destruct (take_parts_spec a idx) as (p' & Hp' & Hperm & _).
  { apply Hparts. by eapply list_elem_of_lookup_2. }
  unfold g in Hg. rewrite Hg in Hp'. by injection Hp' as ->.
Qed.

Lemma directed_bipartition_eq {A} (a : list A) :
  directed_bipartition a
  = (λ parts, parts ++ (swap_parts <$> reverse parts)) <$> bipartition a.
Proof.
  rewrite directed_bipartition_unfold, bipartition_unfold.
  unfold directed_bipartition_indices.
  rewrite mapM_app_eq.
  rewrite (mapM_fmap_comm _ swap_parts swap_parts).
  - rewrite mapM_reverse.
    by destruct (mapM _ (bipartition_indices _)).
  - intros [i0 i1]. unfold py_take. cbn.
    destruct (mapM (py_index a) i0), (mapM (py_index a) i1); reflexivity.
Qed.

Lemma directed_bipartition_parts {A} (a : list A) :
  ∃ parts,
    directed_bipartition a = Some parts ∧
    ∀ p, p ∈ parts → p.1 ++ p.2 ≡ₚ a.
Proof.
  rewrite directed_bipartition_eq.
  destruct (bipartition_parts a) as (half & -> & _ & Hperm).
  eexists. split; [done|].
  intros p [Hp|(q & -> & Hq)%list_elem_of_fmap]%elem_of_app.
  - by apply Hperm.
  - rewrite elem_of_reverse in Hq. rewrite <- (Hperm q Hq).
    destruct q; cbn. apply (comm (++)).
Qed.

(** [bipartition(a)] never fails on an index: it returns one pair of parts
    per entry of [bipartition_indices(len(a))], so none for the empty
    sequence and [2 ** (len(a) - 1)] otherwise, and the two parts of every
    pair together are a rearrangement of [a]. *)
Theorem bipartition_spec {A} (a : list A) :
  ∃ parts,
    bipartition a = Some parts ∧
    (a = [] → parts = []) ∧
    (a ≠ [] → length parts = (2 ^ (length a - 1))%nat) ∧
    ∀ p, p ∈ parts → p.1 ++ p.2 ≡ₚ a.
Proof.
  destruct (bipartition_parts a) as (parts & Hparts & Hsame & Hperm).
  exists parts. split_and!; [done| | |done].
  - intros ->. by destruct parts.
  - intros Ha. rewrite Hsame.
    rewrite bipartition_indices_length by (destruct a; [done|cbn; lia]).
    destruct a as [|x a]; [done|]. cbn [length].
    replace (Z.of_nat (S (length a)) - 1)%Z with (Z.of_nat (length a))
      by lia.
    replace (S (length a) - 1)%nat with (length a) by lia.
    rewrite <- (Nat2Z.id (2 ^ length a)). f_equal.
    by rewrite Nat2Z.inj_pow.
Qed.

(** [directed_bipartition(a)] is [bipartition(a)] followed by the mirror
    images of its pairs in reverse order: the same list when read backwards
    with every pair swapped, and again every pair is a rearrangement of
    [a]. *)
Theorem directed_bipartition_mirrors_bipartition {A} (a : list A) :
  directed_bipartition a
  = (λ parts, parts ++ (swap_parts <$> reverse parts)) <$> bipartition a ∧
  ∃ parts,
    directed_bipartition a = Some parts ∧
    swap_parts <$> reverse parts = parts ∧
    (∀ p, p ∈ parts → p.1 ++ p.2 ≡ₚ a).
Proof.
  split; [apply directed_bipartition_eq|].
  destruct (directed_bipartition_parts a) as (parts & Hparts & Hperm).
  exists parts. split_and!; [done| |done].
  rewrite directed_bipartition_eq in Hparts.
  destruct (bipartition a) as [half|]; [|done].
  cbn in Hparts. injection Hparts as <-. apply mirrored_list.
Qed.

(** [directed_bipartition_of_one(a)] never fails either, and every pair it
    returns splits [a] into one element and the remaining [len(a) - 1]
    elements, on one side or the other. *)
Theorem directed_bipartition_of_one_spec {A} (a : list A) :
  ∃ parts,
    directed_bipartition_of_one a = Some parts ∧
    ∀ p, p ∈ parts →
      p.1 ++ p.2 ≡ₚ a ∧
      ((length p.1 = 1 ∧ length p.2 = length a - 1) ∨
       (length p.2 = 1 ∧ length p.1 = length a - 1))%nat.
Proof.
  destruct (directed_bipartition_parts a) as (all & Hall & Hperm).
  unfold directed_bipartition_of_one. rewrite Hall. cbn.
  eexists. split; [done|].
  intros p [Hone Hp]%list_elem_of_filter.
  specialize (Hperm p Hp). split; [done|].
  apply Permutation_length in Hperm. rewrite length_app in Hperm.
  destruct Hone; [left|right]; lia.
Qed.

(** *** States *)

Lemma bind_singleton_fmap {A B} (f : A → B) (l : list A) :
  (x ← l; [f x]) = f <$> l.
Proof. induction l as [|x l IH]; [done|]. cbn. by rewrite IH. Qed.

Lemma product01_S (n : nat) :
  product01 (S n) = (cons 0%nat <$> product01 n) ++ (cons 1%nat <$> product01 n).
Proof.
  cbn [product01]. cbn [mbind list_bind]. rewrite app_nil_r.
  by rewrite !bind_singleton_fmap.
Qed.

Lemma product01_length (n : nat) : length (product01 n) = (2 ^ n)%nat.
Proof.
  induction n as [|n IH]; [done|].
  rewrite product01_S, length_app, !length_fmap, IH. cbn. lia.
Qed.

Lemma product01_elem (n : nat) (s : list nat) :
  s ∈ product01 n ↔ length s = n ∧ Forall (λ b, b ≤ 1)%nat s.
Proof.
  revert s. induction n as [|n IH]; intros s.
  - cbn. rewrite list_elem_of_singleton. split.
    + intros ->. by split.
    + intros [Hlen _]. by destruct s.
  - rewrite product01_S, elem_of_app, !list_elem_of_fmap. split.
    + intros [(r & -> & Hr)|(r & -> & Hr)]; apply IH in Hr as [Hlen Hall];
        (split; [cbn; lia|constructor; [lia|done]]).
    + intros [Hlen Hall]. destruct s as [|b s]; [done|].
      apply list.Forall_cons in Hall as [Hb Hall].
      assert (s ∈ product01 n) as Hs by (apply IH; split; [cbn in Hlen; lia|done]).
      destruct (decide (b = 0%nat)) as [->|Hb0].
      * left. by exists s.
      * right. exists s. split; [|done]. f_equal. lia.
Qed.

Lemma loli_index_snoc (l : list nat) (b : nat) :
  loli_index (l ++ [b]) = (loli_index l + 2 ^ length l * b)%nat.
Proof.
  induction l as [|x l IH].
  - cbn. lia.
  - change (loli_index ((x :: l) ++ [b]))
      with (x + 2 * loli_index (l ++ [b]))%nat.
    change (loli_index (x :: l)) with (x + 2 * loli_index l)%nat.
    rewrite IH. cbn [length]. rewrite Nat.pow_succ_r'. lia.
Qed.

Lemma product01_index (n k : nat) (s : list nat) :
  product01 n !! k = Some s → loli_index (reverse s) = k.
Proof.
  revert k s. induction n as [|n IH]; intros k s.
  - destruct k; [|done]. by intros [= <-].
  - rewrite product01_S. intros Hk.
    pose proof (product01_length n) as Hlen.
    destruct (decide (k < 2 ^ n)%nat) as [Hlt|Hge].
    + rewrite lookup_app_l in Hk by (rewrite length_fmap; lia).
      rewrite list_lookup_fmap in Hk.
      destruct (product01 n !! k) as [r|] eqn:Hr; [|done].
      injection Hk as <-.
      rewrite reverse_cons, loli_index_snoc, (IH _ _ Hr). lia.
    + rewrite lookup_app_r in Hk by (rewrite length_fmap; lia).
      rewrite length_fmap, Hlen, list_lookup_fmap in Hk.
      destruct (product01 n !! (k - 2 ^ n)%nat) as [r|] eqn:Hr; [|done].
      injection Hk as <-.
      assert (length r = n) as Hr'.
      { apply (product01_elem n r). by eapply list_elem_of_lookup_2. }
      rewrite reverse_cons, loli_index_snoc, (IH _ _ Hr), length_reverse, Hr'.
      lia.
Qed.

(** [all_states(n)] yields nothing for [n = 0] (not the one empty state),
    fails for a negative [n], and for a positive [n] yields each of the
    [2 ** n] binary states of length [n] exactly once.  In LOLI order, the
    default, the state at position [k] is [k] written in binary with the
    first node as the lowest-order bit; with [holi] it is that state read
    backwards. *)
Theorem all_states_spec (n : Z) (holi : bool) :
  ((n = 0)%Z → all_states n holi = Ok []) ∧
  ((n < 0)%Z → all_states n holi = Err ValueError) ∧
  ((0 < n)%Z →
   ∃ L, all_states n holi = Ok L ∧
        length L = (2 ^ Z.to_nat n)%nat ∧
        NoDup L ∧
        (∀ s, s ∈ L ↔ length s = Z.to_nat n ∧ Forall (λ b, b ≤ 1)%nat s) ∧
        (∀ k s, L !! k = Some s →
                loli_index (if holi then reverse s else s) = k)).
Proof.
  unfold all_states. split_and!.
  - intros ->. done.
  - intros Hn. rewrite bool_decide_eq_false_2 by lia.
    by rewrite bool_decide_eq_true_2.
  - intros Hn. rewrite !bool_decide_eq_false_2 by lia.
    eexists. split; [done|].
    assert (∀ k s,
              ((λ state, if holi then state else reverse state)
               <$> product01 (Z.to_nat n)) !! k = Some s →
              loli_index (if holi then reverse s else s) = k) as Hindex.
    { intros k s. rewrite list_lookup_fmap.
      destruct (product01 (Z.to_nat n) !! k) as [r|] eqn:Hr; [|done].
      intros [= <-]. destruct holi; by eapply product01_index. }
    split_and!.
    + by rewrite length_fmap, product01_length.
    + apply NoDup_alt. intros i j s Hi Hj.
      by rewrite <- (Hindex _ _ Hi), <- (Hindex _ _ Hj).
    + intros s. rewrite list_elem_of_fmap. split.
      * intros (r & -> & [Hlen Hall]%product01_elem).
        destruct holi; [done|].
        split; [by rewrite length_reverse|].
        by rewrite reverse_Permutation.
      * intros [Hlen Hall]. destruct holi.
        -- exists s. split; [done|]. by apply product01_elem.
        -- exists (reverse s). split; [by rewrite reverse_involutive|].
           apply product01_elem. split; [by rewrite length_reverse|].
           by rewrite reverse_Permutation.
    + done.
Qed.

(** *** Repertoire shapes *)

Lemma shape_size (purview l : list Z) :
  foldr Nat.mul 1%nat
    ((λ i, if bool_decide (i ∈ purview) then 2%nat else 1%nat) <$> l)
  = (2 ^ length (filter (λ i, i ∈ purview) l))%nat.
Proof.
  induction l as [|i l IH]; [done|].
  cbn [fmap list_fmap foldr]. rewrite IH. case_bool_decide as Hi.
  - rewrite filter_cons_True by done. cbn [length].
    by rewrite Nat.pow_succ_r'.
  - rewrite filter_cons_False by done. lia.
Qed.

(** [repertoire_shape(purview, N)] has one dimension per node of the
    system, of size 1 or 2, whatever the purview lists.  The shape holds
    [2 ** k] entries in all, where [k] counts the nodes of the system that
    occur in the purview: indices outside the system and repetitions do not
    count.  So for a purview of distinct nodes of the system, in whatever
    order, it holds [2 ** len(purview)] entries. *)
Theorem repertoire_shape_size (purview : list Z) (N : Z) :
  length (repertoire_shape purview N) = Z.to_nat N ∧
  Forall (λ d, d = 1 ∨ d = 2)%nat (repertoire_shape purview N) ∧
  foldr Nat.mul 1%nat (repertoire_shape purview N)
  = (2 ^ length (filter (λ i, i ∈ purview) (py_range N)))%nat ∧
  (NoDup purview →
   (∀ i, i ∈ purview → (0 ≤ i < N)%Z) →
   foldr Nat.mul 1%nat (repertoire_shape purview N)
   = (2 ^ length purview)%nat).
Proof.
  unfold repertoire_shape. split_and!.
  - unfold py_range. by rewrite length_fmap, length_seqZ.
  - apply list.Forall_forall. intros d (i & -> & _)%list_elem_of_fmap.
    case_bool_decide; auto.
  - apply shape_size.
  - intros Hdistinct Hnodes.
    rewrite shape_size. f_equal. apply Permutation_length.
    apply NoDup_Permutation.
    + apply list.NoDup_filter, range_NoDup.
    + done.
    + intros i. rewrite list_elem_of_filter. unfold py_range.
      rewrite elem_of_seqZ. split; [tauto|].
      intros Hi. split; [done|]. specialize (Hnodes i Hi). lia.
Qed.

(** *** Nodes *)

Lemma remove_dups_length_le {A} `{EqDecision A} (l : list A) :
  (length (remove_dups l) ≤ length l)%nat.
Proof.
  induction l as [|x l IH]; [done|].
  cbn. destruct (decide_rel elem_of x l); cbn; lia.
Qed.

Lemma remove_dups_length_lt {A} `{EqDecision A} (l : list A) :
  (length (remove_dups l) < length l)%nat ↔ ¬ NoDup l.
Proof.
  induction l as [|x l IH].
  - cbn. split; [lia|]. intros Hnd. destruct Hnd. constructor.
  - pose proof (remove_dups_length_le l) as Hle.
    rewrite list.NoDup_cons. cbn.
    destruct (decide_rel elem_of x l) as [Hin|Hnin]; cbn.
    + split; [tauto|]. lia.
    + rewrite <- Nat.succ_lt_mono, IH. tauto.
Qed.

(** [Node.__init__] checks the state space and the state before it hashes
    the node.  It raises [ValueError] exactly when the state space has fewer
    than two states, lists a state twice or does not contain the given
    state (so a node given the state [None] is rejected unless [None] is a
    listed state), whatever the data.  Otherwise it raises [TypeError] when
    the data cannot be hashed, as a numpy array cannot, and else builds the
    node, which holds the state space, the state and the index it was
    given. *)
Theorem Node_init_validates {V} `{EqDecision V} {TPM}
    (hash_tpm : TPM → option Z)
    (hash_fields : Z → Z → gset Z → gset Z → list V → V → Z)
    (dataarray : NodeAttrs V TPM) :
  let state_space := attr_state_space dataarray in
  let state := attr_state dataarray in
  let valid :=
    NoDup state_space ∧ (2 ≤ length state_space)%nat ∧ state ∈ state_space in
  (Node_init hash_tpm hash_fields dataarray = Err ValueError ↔ ¬ valid) ∧
  (valid → hash_tpm (attr_data dataarray) = None →
   Node_init hash_tpm hash_fields dataarray = Err TypeError) ∧
  (valid → ∀ h, hash_tpm (attr_data dataarray) = Some h →
   ∃ node, Node_init hash_tpm hash_fields dataarray = Ok node ∧
           node_state_space node = state_space ∧
           node_state node = state ∧
           node_index node = attr_index dataarray ∧
           node_tpm node = attr_data dataarray).
Proof.
  intros state_space state valid. subst valid.
  unfold Node_init, set_state_space, set_state.
  fold state_space. fold state.
  pose proof (remove_dups_length_lt state_space) as Hdups.
  split_and!.
  - case_bool_decide as H1; cbn.
    { split; [|done]. intros _ (Hnd & _). tauto. }
    case_bool_decide as H2; cbn.
    { split; [|done]. intros _ (_ & Hlen & _). lia. }
    case_bool_decide as H3; cbn.
    { split; [|done]. intros _ (_ & _ & Hin). tauto. }
    assert (NoDup state_space) as Hnd
      by (destruct (decide (NoDup state_space)); tauto).
    assert (state ∈ state_space) as Hin
      by (destruct (decide (state ∈ state_space)); tauto).
    split.
    + by destruct (hash_tpm (attr_data dataarray)).
    + intros Hbad. destruct Hbad. split_and!; [done|lia|done].
  - intros (Hnd & Hlen & Hin) Hhash.
    rewrite !bool_decide_eq_false_2 by (try lia; tauto). cbn.
    rewrite bool_decide_eq_false_2 by tauto. cbn.
    by rewrite Hhash.
  - intros (Hnd & Hlen & Hin) h Hhash.
    rewrite !bool_decide_eq_false_2 by (try lia; tauto). cbn.
    rewrite bool_decide_eq_false_2 by tauto. cbn.
    rewrite Hhash. cbn. eexists. by split_and!.
Qed.
